(** * Parametric-curve core of the curve editor (src/src/math.js)

    A shallow embedding of the [CurveMath] object: the rational Bezier
    evaluator (De Casteljau), the Cox-de Boor basis functions, the uniform
    open knot generator and the B-Spline evaluator and samplers, followed by
    the properties the specification states about them.  The geometry
    helpers of the same object (nearest control point, bounding box,
    validity) and the operations of the [DataManager] object on its lists
    of control points follow, with properties of their own.

    Numbers.  A JavaScript number is modelled by an exact rational ([Qc],
    canonical fractions, so that equality is Leibniz equality) extended with
    the three non-finite values and with [undefined], which an array read
    past its end yields.  Arithmetic on finite values is exact: rounding,
    overflow and the sign of zero are not part of the model.  Every theorem
    below is a statement about this exact arithmetic. *)

From Stdlib Require Import QArith Qcanon Qround ZArith Lia Lqa.
From stdpp Require Import base list numbers option.
From Stdlib Require String.

Local Open Scope Qc_scope.

(** ** Numbers *)

Module Num.

Inductive val : Type :=
| Fin (q : Qc)
| PInf
| NInf
| NaN
| Undefined.

#[global] Instance val_eq_dec : EqDecision val.
Proof. solve_decision. Defined.

Definition ofZ (z : Z) : val := Fin (Qc_of_Z z).
Definition ofNat (n : nat) : val := ofZ (Z.of_nat n).

Definition zero : val := Fin 0.
Definition one : val := Fin 1.

(** [a + b] *)
Definition add (a b : val) : val :=
  match a, b with
  | Fin p, Fin q => Fin (p + q)
  | Fin _, PInf | PInf, Fin _ | PInf, PInf => PInf
  | Fin _, NInf | NInf, Fin _ | NInf, NInf => NInf
  | _, _ => NaN
  end.

Definition neg (a : val) : val :=
  match a with
  | Fin p => Fin (- p)
  | PInf => NInf
  | NInf => PInf
  | _ => NaN
  end.

(** [a - b] *)
Definition sub (a b : val) : val := add a (neg b).

(** The infinity whose sign is that of [s], [NaN] for a zero [s]. *)
Definition signedInf (s : comparison) : val :=
  match s with Eq => NaN | Gt => PInf | Lt => NInf end.

(** [a * b] *)
Definition mul (a b : val) : val :=
  match a, b with
  | Fin p, Fin q => Fin (p * q)
  | Fin p, PInf | PInf, Fin p => signedInf (p ?= 0)
  | Fin p, NInf | NInf, Fin p => signedInf (0 ?= p)
  | PInf, PInf | NInf, NInf => PInf
  | PInf, NInf | NInf, PInf => NInf
  | _, _ => NaN
  end.

(** [a / b]; the model has one zero, taken to be the positive one. *)
Definition div (a b : val) : val :=
  match a, b with
  | Fin p, Fin q =>
      if bool_decide (q = 0) then signedInf (p ?= 0) else Fin (p / q)
  | Fin _, PInf | Fin _, NInf => Fin 0
  | PInf, Fin q => if bool_decide (q < 0) then NInf else PInf
  | NInf, Fin q => if bool_decide (q < 0) then PInf else NInf
  | _, _ => NaN
  end.

(** [a <= b] *)
Definition le (a b : val) : bool :=
  match a, b with
  | Fin p, Fin q => bool_decide (p <= q)
  | Fin _, PInf | NInf, Fin _ | NInf, PInf | NInf, NInf | PInf, PInf => true
  | _, _ => false
  end.

(** [a < b] *)
Definition lt (a b : val) : bool :=
  match a, b with
  | Fin p, Fin q => bool_decide (p < q)
  | Fin _, PInf | NInf, Fin _ | NInf, PInf => true
  | _, _ => false
  end.

(** [a === b] *)
Definition strictEq (a b : val) : bool :=
  match a, b with
  | Fin p, Fin q => bool_decide (p = q)
  | PInf, PInf | NInf, NInf | Undefined, Undefined => true
  | _, _ => false
  end.

(** [a !== b] *)
Definition strictNe (a b : val) : bool := negb (strictEq a b).

Definition isNaN (a : val) : bool :=
  match a with NaN | Undefined => true | _ => false end.

(** [Math.max(a, b)] and [Math.min(a, b)] *)
Definition max (a b : val) : val :=
  if isNaN a || isNaN b then NaN else if le a b then b else a.
Definition min (a b : val) : val :=
  if isNaN a || isNaN b then NaN else if le a b then a else b.

(** Truthiness of a value in a boolean context such as [w || 1]. *)
Definition truthy (a : val) : bool :=
  match a with
  | Fin q => negb (bool_decide (q = 0))
  | PInf | NInf => true
  | NaN | Undefined => false
  end.

(** [a || b] *)
Definition or (a b : val) : val := if truthy a then a else b.

(** [arr[i]] *)
Definition get (arr : list val) (i : nat) : val :=
  default Undefined (arr !! i).

Definition finite (a : val) : Prop := exists q, a = Fin q.

End Num.

Import Num.

Notation "a +! b" := (Num.add a b) (at level 50, left associativity).
Notation "a -! b" := (Num.sub a b) (at level 50, left associativity).
Notation "a *! b" := (Num.mul a b) (at level 40, left associativity).
Notation "a /! b" := (Num.div a b) (at level 40, left associativity).
Notation "a <=! b" := (Num.le a b) (at level 60, no associativity).
Notation "a <! b" := (Num.lt a b) (at level 60, no associativity).
Notation "a !== b" := (Num.strictNe a b) (at level 60, no associativity).
Notation "arr .[ i ]" := (Num.get arr i) (at level 1, left associativity,
  format "arr .[ i ]").

(** ** Data model *)

(** A control point [{x, y, weight}]; the homogeneous points De Casteljau's
    reduction works on are objects of the same shape. *)
Record ControlPoint : Type := mkControlPoint
  { cp_x : val; cp_y : val; cp_weight : val }.

(** A sampled curve point [{x, y}]. *)
Record CurvePoint : Type := mkCurvePoint
  { pt_x : val; pt_y : val }.

#[global] Instance ControlPoint_eq_dec : EqDecision ControlPoint.
Proof. solve_decision. Defined.
#[global] Instance CurvePoint_eq_dec : EqDecision CurvePoint.
Proof. solve_decision. Defined.

(** [arr.push(a)] *)
Definition push {A : Type} (arr : list A) (a : A) : list A := arr ++ [a].

(** [for (let i = from; i < from + count; i++) s = body(i, s)] *)
Fixpoint forLoop {St : Type} (from count : nat) (body : nat -> St -> St)
    (s : St) : St :=
  match count with
  | O => s
  | S count' => forLoop (S from) count' body (body from s)
  end.

(** ** The Bezier evaluator *)

Module CurveMath.

(** The callback of [controlPoints.map] in [deCasteljauBezier]: the lift to
    homogeneous coordinates. *)
Definition homogeneous (p : ControlPoint) : ControlPoint :=
  {| cp_x := cp_x p *! cp_weight p;
     cp_y := cp_y p *! cp_weight p;
     cp_weight := cp_weight p |}.

(** The object pushed in the inner loop of [deCasteljauBezier]. *)
Definition interpolate (t : val) (p1 p2 : ControlPoint) : ControlPoint :=
  {| cp_x := cp_x p1 *! (one -! t) +! cp_x p2 *! t;
     cp_y := cp_y p1 *! (one -! t) +! cp_y p2 *! t;
     cp_weight := cp_weight p1 *! (one -! t) +! cp_weight p2 *! t |}.

(** The inner [for] loop: [newPoints] holds one point per adjacent pair. *)
Fixpoint reduceOnce (t : val) (points : list ControlPoint)
  : list ControlPoint :=
  match points with
  | p1 :: ((p2 :: _) as rest) => interpolate t p1 p2 :: reduceOnce t rest
  | _ => []
  end.

(** The [while (points.length > 1)] loop; [fuel] bounds the number of
    rounds, and [length points] rounds always suffice
    ([reduceLoop_length]). *)
Fixpoint reduceLoop (fuel : nat) (t : val) (points : list ControlPoint)
  : list ControlPoint :=
  match fuel with
  | O => points
  | S fuel' =>
      if (1 <? length points)%nat
      then reduceLoop fuel' t (reduceOnce t points)
      else points
  end.

(** The homogeneous point the reduction ends with ([finalPoint]). *)
Definition finalPoint (controlPoints : list ControlPoint) (t : val)
  : option ControlPoint :=
  let points := map homogeneous controlPoints in
  reduceLoop (length points) t points !! 0%nat.

(** [deCasteljauBezier(controlPoints, t)]; [None] is [null]. *)
Definition deCasteljauBezier (controlPoints : list ControlPoint) (t : val)
  : option CurvePoint :=
  match controlPoints with
  | [] => None
  | [p] => Some {| pt_x := cp_x p; pt_y := cp_y p |}
  | _ =>
      match finalPoint controlPoints t with
      | Some final =>
          if cp_weight final !== zero
          then Some {| pt_x := cp_x final /! cp_weight final;
                       pt_y := cp_y final /! cp_weight final |}
          else Some {| pt_x := cp_x final; pt_y := cp_y final |}
      | None => None
      end
  end.

(** [generateBezierCurve(controlPoints, steps)] *)
Definition generateBezierCurve (controlPoints : list ControlPoint)
    (steps : nat) : list CurvePoint :=
  if (length controlPoints <? 2)%nat then []
  else
    forLoop 0 (steps + 1)
      (fun i curve =>
         let t := ofNat i /! ofNat steps in
         match deCasteljauBezier controlPoints t with
         | Some point => push curve point
         | None => curve
         end)
      [].

(** ** The B-Spline evaluator *)

(** [basisFunction(i, k, t, knots)], by recursion on the order [k].  Every
    call site passes [k = degree + 1]; at [k = 0], where the source never
    reaches its base case, the model answers [NaN]. *)
Fixpoint basisFunction (i k : nat) (t : val) (knots : list val) : val :=
  match k with
  | O => NaN
  | S k1 =>
      match k1 with
      | O => if (knots.[i] <=! t) && (t <! knots.[i + 1]) then one else zero
      | S _ =>
          let left :=
            if knots.[i + k - 1] !== knots.[i]
            then ((t -! knots.[i]) /! (knots.[i + k - 1] -! knots.[i]))
                 *! basisFunction i k1 t knots
            else zero in
          let right :=
            if knots.[i + k] !== knots.[i + 1]
            then ((knots.[i + k] -! t) /! (knots.[i + k] -! knots.[i + 1]))
                 *! basisFunction (i + 1) k1 t knots
            else zero in
          left +! right
      end
  end.

(** [generateUniformKnots(n, degree)]; [internalKnots] may be negative. *)
Definition generateUniformKnots (n degree : nat) : list val :=
  let knots := [] in
  let knots := forLoop 0 (degree + 1) (fun _ knots => push knots zero) knots in
  let internalKnots := (Z.of_nat n - Z.of_nat degree)%Z in
  let knots :=
    forLoop 1 (Z.to_nat (internalKnots - 1))
      (fun i knots => push knots (ofNat i /! ofZ internalKnots)) knots in
  let knots := forLoop 0 (degree + 1) (fun _ knots => push knots one) knots in
  knots.

(** The knot vector in use: the one passed, or the generated one when the
    argument is [null]. *)
Definition knotsOrDefault (knots : option (list val)) (n degree : nat)
  : list val :=
  match knots with
  | Some knots => knots
  | None => generateUniformKnots n degree
  end.

(** The accumulation loop of [bSplinePoint]: [i] runs over the indices of
    [controlPoints], [acc] is [(x, y, weightSum)]. *)
Fixpoint accumulate (i : nat) (controlPoints : list ControlPoint)
    (t : val) (degree : nat) (knots : list val) (acc : val * val * val)
  : val * val * val :=
  match controlPoints with
  | [] => acc
  | p :: rest =>
      let '(x, y, weightSum) := acc in
      let basis := basisFunction i (degree + 1) t knots in
      let weight := Num.or (cp_weight p) one in
      let totalWeight := basis *! weight in
      accumulate (S i) rest t degree knots
        (x +! cp_x p *! totalWeight,
         y +! cp_y p *! totalWeight,
         weightSum +! totalWeight)
  end.

(** The parameter after [Math.max(lo, Math.min(hi, t))]. *)
Definition clampToDomain (knots : list val) (n degree : nat) (t : val)
  : val :=
  Num.max knots.[degree] (Num.min knots.[n] t).

(** [bSplinePoint(controlPoints, t, degree, knots)] *)
Definition bSplinePoint (controlPoints : list ControlPoint) (t : val)
    (degree : nat) (knots : option (list val)) : option CurvePoint :=
  if (length controlPoints =? 0)%nat then None
  else
    let n := length controlPoints in
    if (n <? degree + 1)%nat then None
    else
      let knots := knotsOrDefault knots n degree in
      let t := clampToDomain knots n degree t in
      let '(x, y, weightSum) :=
        accumulate 0 controlPoints t degree knots (zero, zero, zero) in
      if weightSum !== zero
      then Some {| pt_x := x /! weightSum; pt_y := y /! weightSum |}
      else Some {| pt_x := x; pt_y := y |}.

(** [generateBSplineCurve(controlPoints, degree, steps, knots)] *)
Definition generateBSplineCurve (controlPoints : list ControlPoint)
    (degree steps : nat) (knots : option (list val)) : list CurvePoint :=
  if (length controlPoints <? degree + 1)%nat then []
  else
    let n := length controlPoints in
    let knots := knotsOrDefault knots n degree in
    let lo := knots.[degree] in
    let hi := knots.[n] in
    forLoop 0 (steps + 1)
      (fun i curve =>
         let t := lo +! (ofNat i /! ofNat steps) *! (hi -! lo) in
         match bSplinePoint controlPoints t degree (Some knots) with
         | Some point => push curve point
         | None => curve
         end)
      [].

End CurveMath.

Import CurveMath.

(** ** Geometry and validity *)

Module Geometry.

Section Distance.

(** [Math.sqrt].  Its value is a rounded square root, which exact rationals
    do not define; it is a parameter of [distance], and what is proved
    below holds for every such function. *)
Variable sqrt : val -> val.

(** [Math.pow(a, 2)] *)
Definition square (a : val) : val := a *! a.

(** [distance(p1, p2)], as [findNearestControlPoint] calls it: a control
    point and a target [{x, y}]. *)
Definition distance (p1 : ControlPoint) (p2 : CurvePoint) : val :=
  sqrt (square (pt_x p2 -! cp_x p1) +! square (pt_y p2 -! cp_y p1)).

(** The loop of [findNearestControlPoint]; the state is
    [(nearestIndex, minDistance)]. *)
Fixpoint scanNearest (i : nat) (controlPoints : list ControlPoint)
    (targetPoint : CurvePoint) (state : Z * val) : Z * val :=
  match controlPoints with
  | [] => state
  | p :: rest =>
      let distance := distance p targetPoint in
      scanNearest (S i) rest targetPoint
        (if distance <! state.2 then (Z.of_nat i, distance) else state)
  end.

(** [findNearestControlPoint(controlPoints, targetPoint, threshold)] *)
Definition findNearestControlPoint (controlPoints : list ControlPoint)
    (targetPoint : CurvePoint) (threshold : val) : Z :=
  (scanNearest 0 controlPoints targetPoint ((-1)%Z, threshold)).1.

End Distance.

(** The object [getBoundingBox] returns. *)
Record BoundingBox : Type := mkBoundingBox
  { minX : val; minY : val; maxX : val; maxY : val;
    width : val; height : val }.

(** One round of the loop of [getBoundingBox]; the state is
    [(minX, maxX, minY, maxY)]. *)
Definition extendBox (state : val * val * val * val) (point : ControlPoint)
  : val * val * val * val :=
  let '(minX, maxX, minY, maxY) := state in
  (Num.min minX (cp_x point), Num.max maxX (cp_x point),
   Num.min minY (cp_y point), Num.max maxY (cp_y point)).

(** [getBoundingBox(points)] *)
Definition getBoundingBox (points : list ControlPoint)
  : option BoundingBox :=
  match points with
  | [] => None
  | first :: _ =>
      let '(minX, maxX, minY, maxY) :=
        fold_left extendBox points
          (cp_x first, cp_x first, cp_y first, cp_y first) in
      Some {| minX := minX; minY := minY; maxX := maxX; maxY := maxY;
              width := maxX -! minX; height := maxY -! minY |}
  end.

End Geometry.

Import Geometry.

Module Validity.

Import Stdlib.Strings.String.

(** [validateCurve(controlPoints, curveType, degree)]; [None] is a missing
    array. *)
Definition validateCurve (controlPoints : option (list ControlPoint))
    (curveType : string) (degree : nat) : bool :=
  match controlPoints with
  | None => false
  | Some controlPoints =>
      if (List.length controlPoints =? 0)%nat then false
      else if String.eqb curveType "bezier"%string then
        (2 <=? List.length controlPoints)%nat
      else if String.eqb curveType "spline"%string then
        (degree + 1 <=? List.length controlPoints)%nat
      else false
  end.

End Validity.

Import Validity.

(** ** The point store *)

(** The functions of the data manager that create and change the control
    points handed to the evaluators, as functions of the list of points
    they select; the choice of the list by curve type and the copy kept in
    local storage are outside the model. *)
Module DataManager.

(** [Math.round(a)]: the nearest integer, halves upwards. *)
Definition round (a : val) : val :=
  match a with
  | Fin q => Fin (Qc_of_Z (Qfloor (q + Q2Qc (1 # 2))))
  | PInf => PInf
  | NInf => NInf
  | _ => NaN
  end.

(** The literals [0.1] and [3.0]. *)
Definition minWeight : Qc := Q2Qc (1 # 10).
Definition maxWeight : Qc := Qc_of_Z 3.

(** [Math.max(0.1, Math.min(3.0, w))] *)
Definition clampWeight (w : val) : val :=
  Num.max (Fin minWeight) (Num.min (Fin maxWeight) w).

(** [index >= 0 && index < points.length] *)
Definition inRange {A : Type} (index : Z) (points : list A) : bool :=
  (0 <=? index)%Z && (index <? Z.of_nat (length points))%Z.

Section Store.

(** The type of point ids; [generateId calls] is the id that the call
    number [calls] of [generateId()] returns (it reads the clock and a
    random number). *)
Context {Id : Type} (generateId : nat -> Id).

(** A stored point [{x, y, weight, id}]. *)
Record Point : Type := mkPoint { point : ControlPoint; id : Id }.

(** A point object as handed to [validatePoints]; [None] is an id that is
    missing or empty. *)
Record RawPoint : Type := mkRawPoint
  { raw : ControlPoint; rawId : option Id }.

(** [addControlPoint(x, y)]: the index of the new point, the points and
    the number of ids generated so far. *)
Definition addControlPoint (x y : val) (points : list Point) (calls : nat)
  : Z * list Point * nat :=
  let new :=
    {| point := {| cp_x := round x; cp_y := round y; cp_weight := one |};
       id := generateId calls |} in
  let points := push points new in
  ((Z.of_nat (length points) - 1)%Z, points, S calls).

(** [removeControlPoint(index)] *)
Definition removeControlPoint (index : Z) (points : list Point)
  : bool * list Point :=
  if inRange index points then (true, delete (Z.to_nat index) points)
  else (false, points).

(** The assignments of [updateControlPoint] to one point; [None] is
    [null]. *)
Definition movePoint (x y : option val) (relative : bool) (p : Point)
  : Point :=
  let c := point p in
  if relative then
    {| point := {| cp_x := cp_x c +! default zero x;
                   cp_y := cp_y c +! default zero y;
                   cp_weight := cp_weight c |};
       id := id p |}
  else
    {| point := {| cp_x := match x with Some x => round x | None => cp_x c end;
                   cp_y := match y with Some y => round y | None => cp_y c end;
                   cp_weight := cp_weight c |};
       id := id p |}.

(** [updateControlPoint(index, x, y, curveType, relative)] *)
Definition updateControlPoint (index : Z) (x y : option val)
    (relative : bool) (points : list Point) : bool * list Point :=
  if inRange index points
  then (true, alter (movePoint x y relative) (Z.to_nat index) points)
  else (false, points).

(** The assignment of [updatePointWeight] to one point. *)
Definition setWeight (weight : val) (p : Point) : Point :=
  {| point := {| cp_x := cp_x (point p); cp_y := cp_y (point p);
                 cp_weight := clampWeight weight |};
     id := id p |}.

(** [updatePointWeight(index, weight)] *)
Definition updatePointWeight (index : Z) (weight : val)
    (points : list Point) : bool * list Point :=
  if inRange index points
  then (true, alter (setWeight weight) (Z.to_nat index) points)
  else (false, points).

(** The test of the [filter] in [validatePoints]: both coordinates are
    numbers other than [NaN]. *)
Definition wellFormed (p : RawPoint) : bool :=
  negb (isNaN (cp_x (raw p))) && negb (isNaN (cp_y (raw p))).

(** The [map] of [validatePoints], with the number of ids generated. *)
Fixpoint validateEach (points : list RawPoint) (calls : nat)
  : list Point * nat :=
  match points with
  | [] => ([], calls)
  | p :: rest =>
      let '(newId, calls) :=
        match rawId p with
        | Some i => (i, calls)
        | None => (generateId calls, S calls)
        end in
      let validated :=
        {| point :=
             {| cp_x := round (cp_x (raw p)); cp_y := round (cp_y (raw p));
                cp_weight := clampWeight (Num.or (cp_weight (raw p)) one) |};
           id := newId |} in
      let '(rest, calls) := validateEach rest calls in
      (validated :: rest, calls)
  end.

(** [validatePoints(points)] *)
Definition validatePoints (points : list RawPoint) (calls : nat)
  : list Point * nat :=
  validateEach (List.filter wellFormed points) calls.


(** The [controlPoints] field of the object [exportCurveData] returns,
    [points.map(p => ({x: p.x, y: p.y, weight: p.weight}))]: the points
    without their ids.  [importCurveData] hands this field to
    [validatePoints] and stores the result. *)
Definition exportedPoints (points : list Point) : list RawPoint :=
  map (fun p => {| raw := point p; rawId := None |}) points.




End Store.

End DataManager.

Import DataManager.

(** * Terms of the properties *)

(** A control point whose three fields are finite numbers. *)
Definition finitePoint (p : ControlPoint) : Prop :=
  finite (cp_x p) /\ finite (cp_y p) /\ finite (cp_weight p).

(** The interior knot [i / (n - degree)]. *)
Definition interiorKnot (n degree i : nat) : Qc :=
  Qc_of_Z (Z.of_nat i) / Qc_of_Z (Z.of_nat n - Z.of_nat degree).

(** The vector the specification describes. *)
Definition openUniformKnots (n degree : nat) : list val :=
  replicate (degree + 1) zero
  ++ map (fun i => Fin (interiorKnot n degree i)) (seq 1 (n - degree - 1))
  ++ replicate (degree + 1) one.

(** The knot at index [j]: [(j - degree) / (n - degree)] cut to [[0, 1]]. *)
Definition knotAt (n degree j : nat) : Qc :=
  interiorKnot n degree (Nat.min (j - degree) (n - degree)).

(** The sum of the [n] basis functions of order [degree + 1] at [t]. *)
Definition basisSum (n degree : nat) (t : val) (knots : list val) : val :=
  forLoop 0 n (fun i s => s +! basisFunction i (degree + 1) t knots) zero.



(** The weight sum [bSplinePoint] accumulates on the generated knots. *)
Definition weightSum (controlPoints : list ControlPoint) (t : val)
    (degree : nat) : val :=
  let n := length controlPoints in
  let knots := generateUniformKnots n degree in
  let t := clampToDomain knots n degree t in
  (accumulate 0 controlPoints t degree knots (zero, zero, zero)).2.

(** A weight a boolean context takes for false: zero, [NaN], or a missing
    field. *)
Definition isFalsyWeight (w : val) : bool :=
  bool_decide (w = zero) || bool_decide (w = NaN)
  || bool_decide (w = Undefined).

(** The control point with weight 1 in place of such a weight. *)
Definition substituteFalsy (p : ControlPoint) : ControlPoint :=
  if isFalsyWeight (cp_weight p)
  then {| cp_x := cp_x p; cp_y := cp_y p; cp_weight := one |}
  else p.

(** The homogeneous point a reduction round yields for [t = NaN]. *)
Definition nanPoint : ControlPoint :=
  {| cp_x := NaN; cp_y := NaN; cp_weight := NaN |}.

(** * Exact arithmetic *)

(** On finite numbers the reduction is plain rational arithmetic; [Exact]
    restates it there, and the lemmas after it carry results back. *)
Module Exact.

Record HPoint : Type := mkH { hx : Qc; hy : Qc; hw : Qc }.

Definition embed (h : HPoint) : ControlPoint :=
  {| cp_x := Fin (hx h); cp_y := Fin (hy h); cp_weight := Fin (hw h) |}.

Definition lift (h : HPoint) : HPoint :=
  {| hx := hx h * hw h; hy := hy h * hw h; hw := hw h |}.

Definition lerp (t : Qc) (a b : HPoint) : HPoint :=
  {| hx := hx a * (1 - t) + hx b * t;
     hy := hy a * (1 - t) + hy b * t;
     hw := hw a * (1 - t) + hw b * t |}.

Fixpoint lerpOnce (t : Qc) (hs : list HPoint) : list HPoint :=
  match hs with
  | a :: ((b :: _) as rest) => lerp t a b :: lerpOnce t rest
  | _ => []
  end.

Fixpoint lerpLoop (fuel : nat) (t : Qc) (hs : list HPoint) : list HPoint :=
  match fuel with
  | O => hs
  | S fuel' =>
      if (1 <? length hs)%nat then lerpLoop fuel' t (lerpOnce t hs) else hs
  end.


(** The perspective division of [deCasteljauBezier]. *)
Definition project (final : HPoint) : CurvePoint :=
  if bool_decide (hw final = 0)
  then {| pt_x := Fin (hx final); pt_y := Fin (hy final) |}
  else {| pt_x := Fin (hx final / hw final);
          pt_y := Fin (hy final / hw final) |}.


End Exact.

Import Exact.

Module ExactBasis.

(** [basisFunction] on rationals, the knot vector given as a function of
    the index. *)
Fixpoint basisQ (U : nat -> Qc) (i k : nat) (t : Qc) : Qc :=
  match k with
  | O => 0
  | S k1 =>
      match k1 with
      | O => if bool_decide (U i <= t) && bool_decide (t < U (i + 1)%nat)
             then 1 else 0
      | S _ =>
          (if bool_decide (U (i + k - 1)%nat = U i) then 0
           else (t - U i) / (U (i + k - 1)%nat - U i) * basisQ U i k1 t)
          + (if bool_decide (U (i + k)%nat = U (i + 1)%nat) then 0
             else (U (i + k)%nat - t) / (U (i + k)%nat - U (i + 1)%nat)
                  * basisQ U (i + 1) k1 t)
      end
  end.

(** The two coefficients of the recursion for degree [m = k - 1], zero
    where the source skips the term. *)
Definition coefL (U : nat -> Qc) (i m : nat) (t : Qc) : Qc :=
  if bool_decide (U (i + m)%nat = U i) then 0
  else (t - U i) / (U (i + m)%nat - U i).

Definition coefR (U : nat -> Qc) (i m : nat) (t : Qc) : Qc :=
  if bool_decide (U (S i + m)%nat = U (S i)) then 0
  else (U (S i + m)%nat - t) / (U (S i + m)%nat - U (S i)).

(** [f from + ... + f (from + count - 1)] *)
Fixpoint sumQ (f : nat -> Qc) (from count : nat) : Qc :=
  match count with
  | O => 0
  | S count' => f from + sumQ f (S from) count'
  end.

End ExactBasis.

Import ExactBasis.

Module ExactSpline.

(** [weight || 1] on a finite weight. *)
Definition effectiveWeight (w : Qc) : Qc :=
  if bool_decide (w = 0) then 1 else w.

(** [accumulate] on rationals, the basis values given by [b]. *)
Fixpoint accumulateQ (b : nat -> Qc) (i : nat) (hs : list HPoint)
    (acc : Qc * Qc * Qc) : Qc * Qc * Qc :=
  match hs with
  | [] => acc
  | h :: rest =>
      let '(x, y, weightSum) := acc in
      let totalWeight := b i * effectiveWeight (hw h) in
      accumulateQ b (S i) rest
        (x + hx h * totalWeight, y + hy h * totalWeight,
         weightSum + totalWeight)
  end.

Definition embed3 (acc : Qc * Qc * Qc) : val * val * val :=
  let '(x, y, w) := acc in (Fin x, Fin y, Fin w).


End ExactSpline.

Import ExactSpline.

Module ExactSplinePoint.

(** [Math.max(0, Math.min(1, t))] on a rational. *)
Definition clampUnit (t : Qc) : Qc :=
  let m := if bool_decide (1 <= t) then 1 else t in
  if bool_decide (0 <= m) then m else 0.

(** The normalisation at the end of [bSplinePoint]. *)
Definition projectSums (acc : Qc * Qc * Qc) : CurvePoint :=
  let '(x, y, w) := acc in
  if bool_decide (w = 0) then {| pt_x := Fin x; pt_y := Fin y |}
  else {| pt_x := Fin (x / w); pt_y := Fin (y / w) |}.

(** The three sums of [bSplinePoint] on the generated knots. *)
Definition splineSums (hs : list HPoint) (degree : nat) (t : Qc)
  : Qc * Qc * Qc :=
  accumulateQ
    (fun i => basisQ (knotAt (length hs) degree) i (degree + 1) (clampUnit t))
    0 hs (0, 0, 0).

#[global] Instance HPoint_eq_dec : EqDecision HPoint.
Proof. solve_decision. Defined.

End ExactSplinePoint.

Import ExactSplinePoint.

Module ExactHull.

(** A curve point inside the box [[xlo, xhi] x [ylo, yhi]]. *)
Definition inBox (xlo xhi ylo yhi : Qc) (pt : CurvePoint) : Prop :=
  Fin xlo <=! pt_x pt = true /\ pt_x pt <=! Fin xhi = true
  /\ Fin ylo <=! pt_y pt = true /\ pt_y pt <=! Fin yhi = true.

(** A control point inside that box. *)
Definition controlInBox (xlo xhi ylo yhi : Qc) (p : ControlPoint) : Prop :=
  inBox xlo xhi ylo yhi {| pt_x := cp_x p; pt_y := cp_y p |}.




End ExactHull.

Import ExactHull.

Module ExactBlend.


End ExactBlend.

Import ExactBlend.

Module NearestScan.

(** What the state of [scanNearest] says about the points scanned so far,
    [d] being the distance to the target: either nothing was within the
    threshold, or the index held is that of the first point at the least
    distance. *)
Definition scanned (d : ControlPoint -> val) (threshold : val)
    (seen : list ControlPoint) (state : Z * val) : Prop :=
  (state = ((-1)%Z, threshold)
   /\ forall p, p ∈ seen -> d p <! threshold = false)
  \/ exists i p,
       state = (Z.of_nat i, d p)
       /\ seen !! i = Some p
       /\ d p <! threshold = true
       /\ (forall q, q ∈ seen -> d q <! d p = false)
       /\ (forall j q, (j < i)%nat -> seen !! j = Some q ->
              isNaN (d q) = false -> d p <! d q = true).

End NearestScan.

Import NearestScan.

Module StoreTerms.

(** A weight inside the range [[0.1, 3]] of the store. *)
Definition weightInRange (p : ControlPoint) : Prop :=
  exists w, cp_weight p = Fin w /\ minWeight <= w /\ w <= maxWeight.

(** A coordinate as [validatePoints] leaves it: an integer or an
    infinity. *)
Definition integral (a : val) : Prop :=
  (exists z, a = Fin (Qc_of_Z z)) \/ a = PInf \/ a = NInf.

(** A point as [validatePoints] leaves it. *)
Definition normalised (p : ControlPoint) : Prop :=
  weightInRange p /\ integral (cp_x p) /\ integral (cp_y p).

(** An argument of [updateControlPoint] that is [null] or a number other
    than [NaN]. *)
Definition nullOrNumber (a : option val) : Prop :=
  forall v, a = Some v -> isNaN v = false.

(** A store all of whose points are as [validatePoints] leaves them. *)
Definition normalisedStore {Id : Type} (points : list (@Point Id)) : Prop :=
  Forall (fun p => normalised (point p)) points.

(** A store all of whose weights are inside the range. *)
Definition weightsInRange {Id : Type} (points : list (@Point Id)) : Prop :=
  Forall (fun p => weightInRange (point p)) points.

(** The curve point [{x: NaN, y: NaN}]. *)
Definition nanCurvePoint : CurvePoint := {| pt_x := NaN; pt_y := NaN |}.

(** A point whose weight is [NaN] or missing. *)
Definition nanWeight (p : ControlPoint) : Prop := isNaN (cp_weight p) = true.

(** A homogeneous point whose three coordinates are [NaN]. *)
Definition poisoned (p : ControlPoint) : Prop :=
  isNaN (cp_x p) = true /\ isNaN (cp_y p) = true
  /\ isNaN (cp_weight p) = true.

End StoreTerms.

Import StoreTerms.

(** * Properties *)

(** ** Arithmetic on finite values *)

Section FiniteArithmetic.

Implicit Types p q : Qc.

Lemma add_Fin p q : Fin p +! Fin q = Fin (p + q).
Proof. reflexivity. Qed.

Lemma sub_Fin p q : Fin p -! Fin q = Fin (p - q).
Proof. reflexivity. Qed.

Lemma mul_Fin p q : Fin p *! Fin q = Fin (p * q).
Proof. reflexivity. Qed.

Lemma Qcminus_nonzero p q : p <> q -> p - q <> 0.
Proof.
  intros Hpq Hz. apply Hpq. rewrite <- (Qcplus_0_l q), <- Hz. ring.
Qed.

Lemma div_Fin p q : q <> 0 -> Fin p /! Fin q = Fin (p / q).
Proof. intros Hq. unfold div. by rewrite bool_decide_eq_false_2. Qed.

Lemma strictNe_Fin p q : Fin p !== Fin q = negb (bool_decide (p = q)).
Proof. reflexivity. Qed.


Lemma strictNe_Fin_same p : Fin p !== Fin p = false.
Proof. rewrite strictNe_Fin. by rewrite bool_decide_eq_true_2. Qed.

Lemma le_Fin p q : Fin p <=! Fin q = bool_decide (p <= q).
Proof. reflexivity. Qed.

Lemma lt_Fin p q : Fin p <! Fin q = bool_decide (p < q).
Proof. reflexivity. Qed.

Lemma max_Fin p q :
  Num.max (Fin p) (Fin q) = Fin (if bool_decide (p <= q) then q else p).
Proof. unfold Num.max; simpl. by case_bool_decide. Qed.

Lemma min_Fin p q :
  Num.min (Fin p) (Fin q) = Fin (if bool_decide (p <= q) then p else q).
Proof. unfold Num.min; simpl. by case_bool_decide. Qed.

Lemma Qc_of_Z_nonzero z : z <> 0%Z -> Qc_of_Z z <> 0.
Proof. intros Hz H. apply Hz, Z2Qc_inj. by rewrite Z2Qc_inj_0. Qed.

Lemma Qc_of_Z_pos z : (0 < z)%Z -> 0 < Qc_of_Z z.
Proof. intros Hz. apply Z2Qc_inj_lt in Hz. by rewrite Z2Qc_inj_0 in Hz. Qed.

End FiniteArithmetic.

(** ** Loops that only push *)

Lemma forLoop_push {A : Type} (f : nat -> A) (count from : nat) (arr : list A) :
  forLoop from count (fun i arr => push arr (f i)) arr
  = arr ++ map f (seq from count).
Proof.
  revert from arr. induction count as [|count IH]; intros from arr; simpl.
  - by rewrite app_nil_r.
  - rewrite IH. unfold push. by rewrite <- app_assoc.
Qed.

Lemma forLoop_ext {St : Type} (f g : nat -> St -> St) (count from : nat)
    (s : St) :
  (forall i s', (from <= i < from + count)%nat -> f i s' = g i s') ->
  forLoop from count f s = forLoop from count g s.
Proof.
  revert from s.
  induction count as [|count IH]; intros from s H; simpl; [done|].
  rewrite (H from s) by lia. apply IH. intros i s' Hi. apply H. lia.
Qed.

(** A loop whose body pushes at most one element per round: its last round
    decides the last element when that round pushes. *)
Lemma forLoop_push_option_last {A : Type} (f : nat -> option A)
    (count from : nat) (arr : list A) (a : A) :
  f (from + count)%nat = Some a ->
  list.last (forLoop from (count + 1)
          (fun i arr => match f i with Some b => push arr b | None => arr end)
          arr) = Some a.
Proof.
  revert from arr. induction count as [|count IH]; intros from arr H; simpl.
  - rewrite Nat.add_0_r in H. rewrite H. unfold push. by rewrite last_snoc.
  - apply IH. by replace (S from + count)%nat with (from + S count)%nat by lia.
Qed.

(** ** The knot vector *)

Section Knots.

Lemma map_const_seq {A : Type} (a : A) (from count : nat) :
  map (fun _ => a) (seq from count) = replicate count a.
Proof.
  revert from. induction count as [|count IH]; intros from; simpl; [done|].
  by rewrite IH.
Qed.

Lemma generateUniformKnots_closed (n degree : nat) :
  generateUniformKnots n degree = openUniformKnots n degree.
Proof.
  unfold generateUniformKnots, openUniformKnots.
  rewrite !forLoop_push, !map_const_seq. simpl app at 1.
  rewrite <- app_assoc. f_equal. f_equal.
  replace (Z.to_nat (Z.of_nat n - Z.of_nat degree - 1))
    with (n - degree - 1)%nat by lia.
  apply map_ext_in. intros i Hi. apply in_seq in Hi.
  unfold ofNat, ofZ, interiorKnot. apply div_Fin, Qc_of_Z_nonzero. lia.
Qed.

Lemma interiorKnot_lt (n degree i j : nat) :
  (degree < n)%nat -> (i < j)%nat ->
  interiorKnot n degree i < interiorKnot n degree j.
Proof.
  intros Hn Hij. unfold interiorKnot, Qcdiv.
  apply Qcmult_lt_compat_r.
  - apply Qcinv_pos, Qc_of_Z_pos. lia.
  - apply (proj1 (Z2Qc_inj_lt _ _)). lia.
Qed.

End Knots.

(** C5. For [n >= degree + 1] the generated knot vector has length
    [n + degree + 1] and is [degree + 1] zeros, then the interior knots
    [i / (n - degree)] for [i = 1 .. n - degree - 1], strictly increasing,
    then [degree + 1] ones; [generateUniformKnots 5 3] is
    [0, 0, 0, 0, 1/2, 1, 1, 1, 1]. *)
Theorem generateUniformKnots_shape (n degree : nat) :
  (degree + 1 <= n)%nat ->
  generateUniformKnots n degree
  = replicate (degree + 1) zero
    ++ map (fun i => Fin (interiorKnot n degree i)) (seq 1 (n - degree - 1))
    ++ replicate (degree + 1) one
  /\ length (generateUniformKnots n degree) = (n + degree + 1)%nat
  /\ (forall i j, (1 <= i < j)%nat -> (j <= n - degree - 1)%nat ->
        interiorKnot n degree i < interiorKnot n degree j)
  /\ generateUniformKnots 5 3
     = [zero; zero; zero; zero; Fin (1 / 2); one; one; one; one].
Proof.
  intros Hn. rewrite generateUniformKnots_closed. split; [done|].
  split; [|split].
  - unfold openUniformKnots.
    rewrite !length_app, !length_replicate, length_map, length_seq. lia.
  - intros i j Hij _. apply interiorKnot_lt; lia.
  - compute_done.
Qed.

Lemma generateUniformKnots_shape_witness :
  (3 + 1 <= 5)%nat /\ length (generateUniformKnots 5 3) = 9%nat.
Proof.
  split; [lia|]. apply (generateUniformKnots_shape 5 3). lia.
Defined.

(** ** De Casteljau's reduction *)

Section Reduction.

Lemma reduceOnce_length (t : val) (points : list ControlPoint) :
  length (reduceOnce t points) = (length points - 1)%nat.
Proof.
  induction points as [|p1 [|p2 rest] IH]; simpl in *; [done..|].
  rewrite IH. lia.
Qed.

(** The [while] loop leaves through its own test: after [fuel] rounds,
    [fuel + 1 >= length points], exactly one point is left. *)
Lemma reduceLoop_length (fuel : nat) (t : val) (points : list ControlPoint) :
  (1 <= length points)%nat -> (length points <= fuel + 1)%nat ->
  length (reduceLoop fuel t points) = 1%nat.
Proof.
  revert points. induction fuel as [|fuel IH]; intros points H1 H2; simpl.
  - lia.
  - destruct (Nat.ltb_spec 1 (length points)) as [Hlt|Hge]; [|lia].
    apply IH; rewrite reduceOnce_length; lia.
Qed.

Lemma reduceOnce_Forall (P : ControlPoint -> Prop) (t : val)
    (points : list ControlPoint) :
  (forall p1 p2, P (interpolate t p1 p2)) ->
  Forall P (reduceOnce t points).
Proof.
  intros HP. induction points as [|p1 [|p2 rest] IH]; simpl in *; auto.
Qed.

Lemma reduceLoop_Forall (P : ControlPoint -> Prop) (fuel : nat) (t : val)
    (points : list ControlPoint) :
  (forall p1 p2, P (interpolate t p1 p2)) ->
  Forall P points -> Forall P (reduceLoop fuel t points).
Proof.
  intros HP. revert points.
  induction fuel as [|fuel IH]; intros points Hall; simpl; [done|].
  destruct (1 <? length points)%nat; [|done].
  apply IH. by apply reduceOnce_Forall.
Qed.

Lemma reduceLoop_step (fuel : nat) (t : val) (points : list ControlPoint) :
  (1 < length points)%nat ->
  reduceLoop (S fuel) t points = reduceLoop fuel t (reduceOnce t points).
Proof.
  intros H. simpl. by destruct (Nat.ltb_spec 1 (length points)); [|lia].
Qed.

(** With one point or more the reduction ends on a point. *)
Lemma finalPoint_is_Some (controlPoints : list ControlPoint) (t : val) :
  (1 <= length controlPoints)%nat ->
  exists final,
    reduceLoop (length controlPoints) t (map homogeneous controlPoints)
    = [final].
Proof.
  intros Hlen.
  pose proof (reduceLoop_length (length controlPoints) t
                (map homogeneous controlPoints)) as H.
  rewrite length_map in H. specialize (H Hlen ltac:(lia)).
  destruct (reduceLoop _ _ _) as [|final [|? ?]]; simplify_eq/=.
  by exists final.
Qed.

End Reduction.

(** ** Too few points *)

(** C9. The sentinels for too few points: [generateBezierCurve] on fewer than
    two points and [generateBSplineCurve] on fewer than [degree + 1] points
    return the empty sequence; [deCasteljauBezier] on the empty sequence and
    [bSplinePoint] on fewer than [degree + 1] points return [null].  Each of
    these returns at its guard, before any point is read. *)
Theorem too_few_points_sentinels :
  (forall controlPoints steps,
      (length controlPoints < 2)%nat ->
      generateBezierCurve controlPoints steps = [])
  /\ (forall controlPoints degree steps knots,
      (length controlPoints < degree + 1)%nat ->
      generateBSplineCurve controlPoints degree steps knots = [])
  /\ (forall t, deCasteljauBezier [] t = None)
  /\ (forall controlPoints t degree knots,
      (length controlPoints < degree + 1)%nat ->
      bSplinePoint controlPoints t degree knots = None).
Proof.
  repeat split.
  - intros controlPoints steps H. unfold generateBezierCurve.
    by destruct (Nat.ltb_spec (length controlPoints) 2); [|lia].
  - intros controlPoints degree steps knots H. unfold generateBSplineCurve.
    by destruct (Nat.ltb_spec (length controlPoints) (degree + 1)); [|lia].
  - intros controlPoints t degree knots H. unfold bSplinePoint.
    destruct (length controlPoints =? 0)%nat; [done|].
    by destruct (Nat.ltb_spec (length controlPoints) (degree + 1)); [|lia].
Qed.

Lemma too_few_points_sentinels_witness :
  generateBezierCurve [mkControlPoint one one one] 100 = []
  /\ generateBSplineCurve
       [mkControlPoint zero zero one; mkControlPoint one one one] 3 100 None
     = []
  /\ deCasteljauBezier [] zero = None
  /\ bSplinePoint
       [mkControlPoint zero zero one; mkControlPoint one one one] zero 3 None
     = None.
Proof.
  destruct too_few_points_sentinels as (H1 & H2 & H3 & H4).
  split; [apply H1; simpl; lia|].
  split; [apply H2; simpl; lia|].
  split; [apply H3|].
  apply H4; simpl; lia.
Defined.

(** ** Zero steps *)

Section ZeroSteps.

Lemma mul_NaN_r (a : val) : a *! NaN = NaN.
Proof. by destruct a. Qed.

Lemma add_NaN_r (a : val) : a +! NaN = NaN.
Proof. by destruct a. Qed.

Lemma interpolate_NaN (p1 p2 : ControlPoint) :
  interpolate NaN p1 p2 = nanPoint.
Proof.
  unfold interpolate, nanPoint.
  replace (one -! NaN) with NaN by done.
  by rewrite !mul_NaN_r.
Qed.

Lemma deCasteljauBezier_NaN (controlPoints : list ControlPoint) :
  (2 <= length controlPoints)%nat ->
  deCasteljauBezier controlPoints NaN
  = Some {| pt_x := NaN; pt_y := NaN |}.
Proof.
  intros Hlen. unfold deCasteljauBezier, finalPoint.
  destruct controlPoints as [|p1 [|p2 rest]]; [simpl in Hlen; lia..|].
  set (cps := p1 :: p2 :: rest) in *.
  destruct (finalPoint_is_Some cps NaN ltac:(lia)) as [final Hfinal].
  assert (Hnan : Forall (fun p => p = nanPoint)
                   (reduceLoop (length cps) NaN (map homogeneous cps))).
  { change (length cps) with (S (S (length rest))).
    rewrite reduceLoop_step by (rewrite length_map; simpl; lia).
    apply reduceLoop_Forall; [apply interpolate_NaN|].
    apply reduceOnce_Forall, interpolate_NaN. }
  rewrite length_map, Hfinal. rewrite Hfinal in Hnan.
  apply Forall_inv in Hnan. by subst final.
Qed.

End ZeroSteps.

(** C8, as amended.  With zero steps the single sample is taken at
    [t = 0 / 0], which is [NaN], not at [t = 0]: [generateBezierCurve] on
    two points or more returns one curve point, and both of its coordinates
    are [NaN]. *)
Theorem generateBezierCurve_zero_steps (controlPoints : list ControlPoint) :
  (2 <= length controlPoints)%nat ->
  generateBezierCurve controlPoints 0 = [{| pt_x := NaN; pt_y := NaN |}].
Proof.
  intros Hlen. unfold generateBezierCurve.
  destruct (Nat.ltb_spec (length controlPoints) 2); [lia|].
  simpl forLoop.
  replace (ofNat 0 /! ofNat 0) with NaN by (symmetry; compute_done).
  by rewrite deCasteljauBezier_NaN.
Qed.

Lemma generateBezierCurve_zero_steps_witness :
  generateBezierCurve
    [mkControlPoint one (ofZ 2) one; mkControlPoint (ofZ 3) (ofZ 4) one] 0
  = [{| pt_x := NaN; pt_y := NaN |}].
Proof.
  apply generateBezierCurve_zero_steps. simpl. lia.
Defined.

(** C8 as stated fails: on the control points (1, 2) and (3, 4) of weight 1
    the curve at [t = 0] is the point (1, 2), and the curve for zero steps
    is not that point. *)
Lemma zero_steps_sample_is_not_start :
  let controlPoints :=
    [mkControlPoint one (ofZ 2) one; mkControlPoint (ofZ 3) (ofZ 4) one] in
  deCasteljauBezier controlPoints zero
  = Some {| pt_x := one; pt_y := ofZ 2 |}
  /\ generateBezierCurve controlPoints 0
     <> [{| pt_x := one; pt_y := ofZ 2 |}].
Proof.
  split; compute_done.
Qed.

(** ** The reduction on finite points *)

Section ExactReduction.

Lemma finitePoint_embed (p : ControlPoint) :
  finitePoint p -> exists h, p = embed h.
Proof.
  destruct p as [x y w]. unfold finitePoint, finite; simpl.
  intros ([qx ->] & [qy ->] & [qw ->]). by exists (mkH qx qy qw).
Qed.

Lemma finitePoints_embed (controlPoints : list ControlPoint) :
  Forall finitePoint controlPoints ->
  exists hs, controlPoints = map embed hs.
Proof.
  induction 1 as [|p rest Hp _ [hs ->]].
  - by exists [].
  - destruct (finitePoint_embed p Hp) as [h ->]. by exists (h :: hs).
Qed.

Lemma homogeneous_embed (h : HPoint) :
  homogeneous (embed h) = embed (lift h).
Proof. reflexivity. Qed.

Lemma reduceOnce_embed (t : Qc) (hs : list HPoint) :
  reduceOnce (Fin t) (map embed hs) = map embed (lerpOnce t hs).
Proof.
  induction hs as [|a [|b rest] IH]; [done..|].
  change (map embed (a :: b :: rest))
    with (embed a :: embed b :: map embed rest).
  simpl reduceOnce. simpl lerpOnce. simpl in IH. by rewrite IH.
Qed.

Lemma reduceLoop_embed (fuel : nat) (t : Qc) (hs : list HPoint) :
  reduceLoop fuel (Fin t) (map embed hs) = map embed (lerpLoop fuel t hs).
Proof.
  revert hs. induction fuel as [|fuel IH]; intros hs; simpl; [done|].
  rewrite length_map. destruct (1 <? length hs)%nat; [|done].
  by rewrite reduceOnce_embed, IH.
Qed.

Lemma finalPoint_embed (t : Qc) (hs : list HPoint) :
  finalPoint (map embed hs) (Fin t)
  = embed <$> (lerpLoop (length hs) t (map lift hs) !! 0%nat).
Proof.
  unfold finalPoint. rewrite <- list_lookup_fmap.
  rewrite map_map, length_map.
  rewrite (map_ext _ (fun h => embed (lift h))) by apply homogeneous_embed.
  rewrite <- (map_map lift embed). by rewrite reduceLoop_embed.
Qed.

Lemma lerpOnce_length (t : Qc) (hs : list HPoint) :
  length (lerpOnce t hs) = (length hs - 1)%nat.
Proof.
  induction hs as [|a [|b rest] IH]; simpl in *; [done..|].
  rewrite IH. lia.
Qed.

Lemma HPoint_eq (a b : HPoint) :
  hx a = hx b -> hy a = hy b -> hw a = hw b -> a = b.
Proof. destruct a, b; simpl; congruence. Qed.

(** At [t = 0] a round keeps the left point of every pair, at [t = 1] the
    right one. *)
Lemma lerp_0 (a b : HPoint) : lerp 0 a b = a.
Proof. apply HPoint_eq; simpl; ring. Qed.

Lemma lerp_1 (a b : HPoint) : lerp 1 a b = b.
Proof. apply HPoint_eq; simpl; ring. Qed.

Lemma lerpOnce_0 (hs : list HPoint) :
  lerpOnce 0 hs = take (length hs - 1) hs.
Proof.
  induction hs as [|a [|b rest] IH]; [done..|].
  simpl lerpOnce. simpl in IH. rewrite IH, lerp_0.
  simpl. by rewrite Nat.sub_0_r.
Qed.

Lemma lerpOnce_1 (hs : list HPoint) : lerpOnce 1 hs = drop 1 hs.
Proof.
  induction hs as [|a [|b rest] IH]; [done..|].
  simpl lerpOnce. simpl in IH. by rewrite IH, lerp_1.
Qed.

Lemma lerpLoop_0 (fuel : nat) (hs : list HPoint) :
  (length hs <= fuel + 1)%nat -> lerpLoop fuel 0 hs = take 1 hs.
Proof.
  revert hs. induction fuel as [|fuel IH]; intros hs Hlen; simpl.
  - destruct hs as [|a [|b rest]]; simpl in *; [done..|lia].
  - destruct (Nat.ltb_spec 1 (length hs)) as [Hlt|Hge].
    + rewrite IH by (rewrite lerpOnce_length; lia).
      rewrite lerpOnce_0, take_take. f_equal. lia.
    + destruct hs as [|a [|b rest]]; simpl in *; [done..|lia].
Qed.

Lemma lerpLoop_1 (fuel : nat) (hs : list HPoint) :
  (length hs <= fuel + 1)%nat ->
  lerpLoop fuel 1 hs = drop (length hs - 1) hs.
Proof.
  revert hs. induction fuel as [|fuel IH]; intros hs Hlen; simpl.
  - destruct hs as [|a [|b rest]]; simpl in *; [done..|lia].
  - destruct (Nat.ltb_spec 1 (length hs)) as [Hlt|Hge].
    + rewrite IH by (rewrite lerpOnce_length; lia).
      rewrite lerpOnce_length, lerpOnce_1, drop_drop. f_equal. lia.
    + destruct hs as [|a [|b rest]]; simpl in *; [done..|lia].
Qed.




End ExactReduction.

(** ** The Bezier evaluator on finite points *)

Section ExactBezier.

Lemma deCasteljauBezier_embed (t : Qc) (hs : list HPoint) :
  (2 <= length hs)%nat ->
  deCasteljauBezier (map embed hs) (Fin t)
  = project <$> (lerpLoop (length hs) t (map lift hs) !! 0%nat).
Proof.
  intros Hlen. unfold deCasteljauBezier.
  destruct (map embed hs) as [|p1 [|p2 rest]] eqn:E;
    [destruct hs as [|? [|? ?]]; simpl in *; (lia || discriminate)..|].
  rewrite <- E, finalPoint_embed.
  destruct (lerpLoop _ _ _ !! 0%nat) as [final|]; [|done]. simpl.
  unfold project, zero. rewrite strictNe_Fin.
  by case_bool_decide.
Qed.

Lemma lift_unit_weight (hs : list HPoint) :
  Forall (fun h => hw h = 1) hs -> map lift hs = hs.
Proof.
  induction 1 as [|h rest Hh _ IH]; simpl; [done|]. rewrite IH. f_equal.
  apply HPoint_eq; simpl; rewrite ?Hh; ring.
Qed.

Lemma project_unit_weight (h : HPoint) :
  hw h = 1 -> project h = {| pt_x := Fin (hx h); pt_y := Fin (hy h) |}.
Proof.
  intros Hh. unfold project. rewrite Hh.
  rewrite bool_decide_eq_false_2 by apply Q_apart_0_1.
  f_equal; f_equal; field; apply Q_apart_0_1.
Qed.

Lemma unit_weight_embed (controlPoints : list ControlPoint) :
  Forall (fun p => finite (cp_x p) /\ finite (cp_y p) /\ cp_weight p = one)
    controlPoints ->
  exists hs, controlPoints = map embed hs /\ Forall (fun h => hw h = 1) hs.
Proof.
  induction 1 as [|p rest Hp _ (hs & -> & Hhs)].
  - by exists [].
  - destruct p as [x y w]. simpl in Hp.
    destruct Hp as ([qx ->] & [qy ->] & ->).
    exists (mkH qx qy 1 :: hs). split; [done|]. by constructor.
Qed.

End ExactBezier.

(** C2. On two control points or more, all finite and all of weight 1, the
    curve at [t = 0] is the first control point and the curve at [t = 1] is
    the last one, exactly. *)
Theorem deCasteljauBezier_endpoints
    (controlPoints : list ControlPoint) (first final : ControlPoint) :
  (2 <= length controlPoints)%nat ->
  Forall (fun p => finite (cp_x p) /\ finite (cp_y p) /\ cp_weight p = one)
    controlPoints ->
  head controlPoints = Some first ->
  list.last controlPoints = Some final ->
  deCasteljauBezier controlPoints zero
  = Some {| pt_x := cp_x first; pt_y := cp_y first |}
  /\ deCasteljauBezier controlPoints one
     = Some {| pt_x := cp_x final; pt_y := cp_y final |}.
Proof.
  intros Hlen Hall Hfirst Hfinal.
  destruct (unit_weight_embed _ Hall) as (hs & -> & Hhs).
  rewrite length_map in Hlen.
  unfold zero, one. rewrite !deCasteljauBezier_embed by done.
  rewrite (lift_unit_weight hs Hhs).
  rewrite lerpLoop_0, lerpLoop_1 by lia.
  rewrite lookup_take by lia. rewrite lookup_drop, Nat.add_0_r.
  change (map embed hs) with (embed <$> hs) in Hfirst, Hfinal.
  rewrite head_lookup, list_lookup_fmap in Hfirst.
  rewrite last_lookup, list_lookup_fmap, length_fmap in Hfinal.
  replace (length hs - 1)%nat with (Init.Nat.pred (length hs)) by lia.
  destruct (hs !! 0%nat) as [a|] eqn:Ea; [|done].
  destruct (hs !! Init.Nat.pred (length hs)) as [b|] eqn:Eb; [|done].
  simpl in *. simplify_eq.
  rewrite Forall_lookup in Hhs.
  rewrite !project_unit_weight by eauto. done.
Qed.

Lemma deCasteljauBezier_endpoints_witness :
  let controlPoints :=
    [mkControlPoint one (ofZ 2) one; mkControlPoint (ofZ 3) (ofZ 4) one;
     mkControlPoint (ofZ 5) (ofZ 0) one] in
  deCasteljauBezier controlPoints zero = Some {| pt_x := one; pt_y := ofZ 2 |}
  /\ deCasteljauBezier controlPoints one
     = Some {| pt_x := ofZ 5; pt_y := ofZ 0 |}.
Proof.
  apply (deCasteljauBezier_endpoints _
           (mkControlPoint one (ofZ 2) one)
           (mkControlPoint (ofZ 5) (ofZ 0) one)).
  - simpl. lia.
  - repeat constructor; simpl; unfold finite; eauto.
  - reflexivity.
  - reflexivity.
Defined.

(** ** Two control points *)




(** ** Scaling every weight *)

Section ScalingBezier.





End ScalingBezier.

(** ** Basis functions on finite knots *)

Section ExactBasisFacts.

Lemma basisQ_1 (U : nat -> Qc) (i : nat) (t : Qc) :
  basisQ U i 1 t
  = if bool_decide (U i <= t) && bool_decide (t < U (S i)) then 1 else 0.
Proof. simpl. by replace (i + 1)%nat with (S i) by lia. Qed.

Lemma basisQ_SS (U : nat -> Qc) (i m : nat) (t : Qc) :
  basisQ U i (S (S m)) t
  = coefL U i (S m) t * basisQ U i (S m) t
    + coefR U i (S m) t * basisQ U (S i) (S m) t.
Proof.
  change (basisQ U i (S (S m)) t)
    with ((if bool_decide (U (i + S (S m) - 1)%nat = U i) then 0
           else (t - U i) / (U (i + S (S m) - 1)%nat - U i)
                * basisQ U i (S m) t)
          + (if bool_decide (U (i + S (S m))%nat = U (i + 1)%nat) then 0
             else (U (i + S (S m))%nat - t)
                  / (U (i + S (S m))%nat - U (i + 1)%nat)
                  * basisQ U (i + 1) (S m) t)).
  unfold coefL, coefR.
  replace (i + S (S m) - 1)%nat with (i + S m)%nat by lia.
  replace (i + S (S m))%nat with (S i + S m)%nat by lia.
  replace (i + 1)%nat with (S i) by lia.
  do 2 case_bool_decide; ring.
Qed.

(** The source's function computes [basisQ] wherever the knots it reads
    are finite. *)
Lemma basisFunction_exact (knots : list val) (U : nat -> Qc) (t : Qc)
    (top : nat) :
  (forall j, (j <= top)%nat -> knots.[j] = Fin (U j)) ->
  forall k i, (1 <= k)%nat -> (i + k <= top)%nat ->
    basisFunction i k (Fin t) knots = Fin (basisQ U i k t).
Proof.
  intros Hget. induction k as [|k1 IH]; intros i Hk Hi; [lia|].
  destruct k1 as [|k2].
  - cbn [basisFunction]. rewrite !Hget by lia. rewrite le_Fin, lt_Fin.
    cbn [basisQ]. by destruct (_ && _).
  - change (basisFunction i (S (S k2)) (Fin t) knots)
      with (let left :=
              if knots.[i + S (S k2) - 1] !== knots.[i]
              then ((Fin t -! knots.[i])
                    /! (knots.[i + S (S k2) - 1] -! knots.[i]))
                   *! basisFunction i (S k2) (Fin t) knots
              else zero in
            let right :=
              if knots.[i + S (S k2)] !== knots.[i + 1]
              then ((knots.[i + S (S k2)] -! Fin t)
                    /! (knots.[i + S (S k2)] -! knots.[i + 1]))
                   *! basisFunction (i + 1) (S k2) (Fin t) knots
              else zero in
            left +! right).
    cbv zeta. rewrite !Hget by lia. rewrite !IH by lia.
    change (basisQ U i (S (S k2)) t)
      with ((if bool_decide (U (i + S (S k2) - 1)%nat = U i) then 0
             else (t - U i) / (U (i + S (S k2) - 1)%nat - U i)
                  * basisQ U i (S k2) t)
            + (if bool_decide (U (i + S (S k2))%nat = U (i + 1)%nat) then 0
               else (U (i + S (S k2))%nat - t)
                    / (U (i + S (S k2))%nat - U (i + 1)%nat)
                    * basisQ U (i + 1) (S k2) t)).
    rewrite !strictNe_Fin.
    unfold zero.
    do 2 case_bool_decide; simpl negb; cbv iota;
      rewrite ?sub_Fin, ?div_Fin, ?mul_Fin, ?add_Fin
        by (by apply Qcminus_nonzero);
      done.
Qed.


Lemma sumQ_zero (f : nat -> Qc) (count from : nat) :
  (forall i, (from <= i < from + count)%nat -> f i = 0) ->
  sumQ f from count = 0.
Proof.
  revert from. induction count as [|count IH]; intros from H; simpl; [done|].
  rewrite (H from) by lia. rewrite IH; [ring|]. intros i Hi. apply H. lia.
Qed.





(** A loop adding finite terms to a finite sum. *)
Lemma forLoop_sumQ (f : nat -> Qc) (count from : nat) (a : Qc) :
  forLoop from count (fun i s => s +! Fin (f i)) (Fin a)
  = Fin (a + sumQ f from count).
Proof.
  revert from a. induction count as [|count IH]; intros from a; simpl.
  - f_equal. ring.
  - rewrite IH. f_equal. ring.
Qed.

End ExactBasisFacts.

(** ** Partition of unity on a non-decreasing knot sequence *)

Section PartitionOfUnity.

Variable U : nat -> Qc.
Hypothesis U_mono : forall a b, (a <= b)%nat -> U a <= U b.

Variable t : Qc.

(** Local support: [N(i, k)] vanishes outside [[U i, U (i + k))]. *)
Lemma basisQ_outside (k i : nat) :
  t < U i \/ U (i + k)%nat <= t -> basisQ U i k t = 0.
Proof.
  revert i. induction k as [|k1 IH]; intros i H; [done|].
  destruct k1 as [|m].
  - rewrite basisQ_1.
    replace (i + 1)%nat with (S i) in H by lia.
    destruct H as [H|H].
    + rewrite (bool_decide_eq_false_2 (U i <= t)); [done|].
      by apply Qclt_not_le.
    + rewrite (bool_decide_eq_false_2 (t < U (S i))).
      * by rewrite andb_false_r.
      * by apply Qcle_not_lt.
  - rewrite basisQ_SS. rewrite (IH i), (IH (S i)); [ring| |].
    + destruct H as [H|H].
      * left. eapply Qclt_le_trans; [exact H|]. apply U_mono. lia.
      * right. by replace (S i + S m)%nat with (i + S (S m))%nat by lia.
    + destruct H as [H|H]; [by left|].
      right. eapply Qcle_trans; [|exact H]. apply U_mono. lia.
Qed.

(** The knot span that holds [t]. *)
Variable j : nat.
Hypothesis span_lo : U j <= t.
Hypothesis span_hi : t < U (S j).





End PartitionOfUnity.


(** ** The generated knots, by index *)

Section GeneratedKnots.

Variables n degree : nat.
Hypothesis enough_points : (degree + 1 <= n)%nat.

Lemma interiorKnot_0 : interiorKnot n degree 0 = 0.
Proof.
  unfold interiorKnot, Qcdiv. change (Z.of_nat 0) with 0%Z.
  by rewrite Z2Qc_inj_0, Qcmult_0_l.
Qed.

Lemma interiorKnot_top : interiorKnot n degree (n - degree) = 1.
Proof.
  unfold interiorKnot, Qcdiv.
  replace (Z.of_nat (n - degree)) with (Z.of_nat n - Z.of_nat degree)%Z
    by lia.
  apply Qcmult_inv_r, Qc_of_Z_nonzero. lia.
Qed.

Lemma interiorKnot_le (i j : nat) :
  (i <= j)%nat -> interiorKnot n degree i <= interiorKnot n degree j.
Proof.
  intros Hij. unfold interiorKnot, Qcdiv.
  apply Qcmult_le_compat_r.
  - apply (proj1 (Z2Qc_inj_le _ _)). lia.
  - apply Qclt_le_weak, Qcinv_pos, Qc_of_Z_pos. lia.
Qed.

Lemma knotAt_mono (a b : nat) :
  (a <= b)%nat -> knotAt n degree a <= knotAt n degree b.
Proof. intros Hab. apply interiorKnot_le. lia. Qed.

Lemma knotAt_low (j : nat) : (j <= degree)%nat -> knotAt n degree j = 0.
Proof.
  intros Hj. unfold knotAt.
  replace (Nat.min (j - degree) (n - degree)) with 0%nat by lia.
  apply interiorKnot_0.
Qed.

Lemma knotAt_high (j : nat) : (n <= j)%nat -> knotAt n degree j = 1.
Proof.
  intros Hj. unfold knotAt.
  replace (Nat.min (j - degree) (n - degree)) with (n - degree)%nat by lia.
  apply interiorKnot_top.
Qed.

Lemma generateUniformKnots_get (j : nat) :
  (j <= n + degree)%nat ->
  (generateUniformKnots n degree).[j] = Fin (knotAt n degree j).
Proof.
  intros Hj. rewrite generateUniformKnots_closed.
  unfold openUniformKnots, get.
  destruct (Nat.lt_ge_cases j (degree + 1)) as [Hlow|Hmid].
  - rewrite lookup_app_l by (rewrite length_replicate; lia).
    rewrite lookup_replicate_2 by lia. simpl.
    by rewrite knotAt_low by lia.
  - rewrite lookup_app_r by (rewrite length_replicate; lia).
    rewrite length_replicate.
    destruct (Nat.lt_ge_cases j n) as [Hin|Hhigh].
    + rewrite lookup_app_l by (rewrite length_map, length_seq; lia).
      change (map ?f ?l) with (f <$> l).
      rewrite list_lookup_fmap, lookup_seq_lt by lia. simpl.
      unfold knotAt. do 2 f_equal. lia.
    + rewrite lookup_app_r by (rewrite length_map, length_seq; lia).
      rewrite length_map, length_seq.
      rewrite lookup_replicate_2 by lia. simpl.
      by rewrite knotAt_high by lia.
Qed.

(** The basis functions on the generated knots, in exact form. *)
Lemma basisFunction_generated (t : Qc) (k i : nat) :
  (1 <= k)%nat -> (i + k <= n + degree)%nat ->
  basisFunction i k (Fin t) (generateUniformKnots n degree)
  = Fin (basisQ (knotAt n degree) i k t).
Proof.
  apply basisFunction_exact. apply generateUniformKnots_get.
Qed.

End GeneratedKnots.

(** ** Partition of unity *)

Lemma basisSum_generated (n degree : nat) (t : Qc) :
  (degree + 1 <= n)%nat ->
  basisSum n degree (Fin t) (generateUniformKnots n degree)
  = Fin (sumQ (fun i => basisQ (knotAt n degree) i (degree + 1) t) 0 n).
Proof.
  intros Hn. unfold basisSum, zero.
  rewrite (forLoop_ext _
             (fun i s => s +! Fin (basisQ (knotAt n degree) i (degree + 1) t))).
  - rewrite forLoop_sumQ. f_equal. ring.
  - intros i s Hi. by rewrite basisFunction_generated by lia.
Qed.



(** ** The upper end of the domain *)

Lemma basisQ_at_top (n degree i k : nat) :
  (degree + 1 <= n)%nat -> basisQ (knotAt n degree) i k 1 = 0.
Proof.
  intros Hn. apply (basisQ_outside _ (knotAt_mono n degree Hn)).
  right. eapply Qcle_trans.
  - apply (knotAt_mono n degree Hn (i + k) (i + k + n)). lia.
  - rewrite knotAt_high by lia. apply Qcle_refl.
Qed.

(** C6. For [n >= degree + 1] and the generated knots, the final knot value
    [knots[n]] is 1, and at that parameter every basis function of order
    [degree + 1] with [i = 0 .. n - 1] is 0, so that they add up to 0. *)
Theorem basis_vanishes_at_final_knot (n degree : nat) :
  (degree + 1 <= n)%nat ->
  let knots := generateUniformKnots n degree in
  knots.[n] = one
  /\ (forall i, (i < n)%nat ->
        basisFunction i (degree + 1) knots.[n] knots = zero)
  /\ basisSum n degree knots.[n] knots = zero.
Proof.
  intros Hn knots. subst knots.
  rewrite generateUniformKnots_get, knotAt_high by lia.
  split; [done|]. split.
  - intros i Hi. rewrite basisFunction_generated by lia.
    by rewrite basisQ_at_top.
  - rewrite basisSum_generated by done. unfold zero. f_equal.
    apply sumQ_zero. intros i _. by apply basisQ_at_top.
Qed.

Lemma basis_vanishes_at_final_knot_witness :
  (generateUniformKnots 5 3).[5] = one
  /\ (forall i, (i < 5)%nat ->
        basisFunction i (3 + 1) (generateUniformKnots 5 3).[5]
          (generateUniformKnots 5 3) = zero)
  /\ basisSum 5 3 (generateUniformKnots 5 3).[5] (generateUniformKnots 5 3)
     = zero.
Proof.
  apply (basis_vanishes_at_final_knot 5 3). lia.
Defined.

(** ** The accumulation loop on finite points *)

Section ExactAccumulation.

Lemma or_Fin (w : Qc) : Num.or (Fin w) one = Fin (effectiveWeight w).
Proof.
  unfold Num.or, effectiveWeight, truthy. by case_bool_decide.
Qed.

Lemma accumulate_exact (b : nat -> Qc) (t : val) (degree : nat)
    (knots : list val) (hs : list HPoint) (i : nat) (acc : Qc * Qc * Qc) :
  (forall i', (i <= i' < i + length hs)%nat ->
      basisFunction i' (degree + 1) t knots = Fin (b i')) ->
  accumulate i (map embed hs) t degree knots (embed3 acc)
  = embed3 (accumulateQ b i hs acc).
Proof.
  revert i acc. induction hs as [|h rest IH]; intros i acc Hb; [done|].
  destruct acc as [[x y] w].
  change (accumulate i (map embed (h :: rest)) t degree knots
            (embed3 (x, y, w)))
    with (let basis := basisFunction i (degree + 1) t knots in
          let weight := Num.or (Fin (hw h)) one in
          let totalWeight := basis *! weight in
          accumulate (S i) (map embed rest) t degree knots
            (Fin x +! Fin (hx h) *! totalWeight,
             Fin y +! Fin (hy h) *! totalWeight,
             Fin w +! totalWeight)).
  cbv zeta. rewrite Hb by (simpl; lia). rewrite or_Fin.
  rewrite !mul_Fin, !add_Fin.
  change (Fin ?a, Fin ?b, Fin ?c) with (embed3 (a, b, c)).
  rewrite IH; [done|]. intros i' Hi'. apply Hb. simpl. lia.
Qed.

(** With every basis value zero the sums stay where they are. *)
Lemma accumulateQ_zero_basis (b : nat -> Qc) (hs : list HPoint) (i : nat)
    (acc : Qc * Qc * Qc) :
  (forall i', (i <= i' < i + length hs)%nat -> b i' = 0) ->
  accumulateQ b i hs acc = acc.
Proof.
  revert i acc. induction hs as [|h rest IH]; intros i acc Hb; [done|].
  destruct acc as [[x y] w]. simpl. rewrite (Hb i) by (simpl; lia).
  rewrite IH by (intros i' Hi'; apply Hb; simpl; lia).
  f_equal; [f_equal|]; ring.
Qed.



Lemma clampToDomain_top (n degree : nat) :
  (degree + 1 <= n)%nat ->
  clampToDomain (generateUniformKnots n degree) n degree one = one.
Proof.
  intros Hn. unfold clampToDomain, one.
  rewrite !generateUniformKnots_get by lia.
  rewrite knotAt_low, knotAt_high by lia.
  rewrite min_Fin, max_Fin.
  rewrite !bool_decide_eq_true_2; [done|apply Qcle_refl|].
  apply Qclt_le_weak. reflexivity.
Qed.

End ExactAccumulation.

(** ** The last sample of a B-Spline curve *)

Lemma bSplinePoint_top (hs : list HPoint) (degree : nat) :
  (degree + 1 <= length hs)%nat ->
  bSplinePoint (map embed hs) one degree
    (Some (generateUniformKnots (length hs) degree))
  = Some {| pt_x := zero; pt_y := zero |}.
Proof.
  intros Hn. unfold bSplinePoint. rewrite length_map.
  destruct (Nat.eqb_spec (length hs) 0) as [|_]; [lia|].
  destruct (Nat.ltb_spec (length hs) (degree + 1)) as [|_]; [lia|].
  cbv zeta. unfold knotsOrDefault. rewrite clampToDomain_top by done.
  change (zero, zero, zero) with (embed3 (0, 0, 0)).
  rewrite (accumulate_exact
             (fun i => basisQ (knotAt (length hs) degree) i (degree + 1) 1)).
  - rewrite accumulateQ_zero_basis by (intros i _; by apply basisQ_at_top).
    cbn [embed3]. unfold zero. by rewrite strictNe_Fin_same.
  - intros i Hi. unfold one. apply basisFunction_generated; lia.
Qed.

(** C7. For [points.length >= degree + 1], finite control points, at least
    one step and the generated knots, the last point of the sampled B-Spline
    curve is (0, 0): the last sample is taken at [t = knots[n]], where every
    basis function is zero, the weight sum is zero and the sums returned
    unnormalised are zero. *)
Theorem generateBSplineCurve_last_point
    (controlPoints : list ControlPoint) (degree steps : nat) :
  (degree + 1 <= length controlPoints)%nat ->
  (1 <= steps)%nat ->
  Forall finitePoint controlPoints ->
  list.last (generateBSplineCurve controlPoints degree steps None)
  = Some {| pt_x := zero; pt_y := zero |}.
Proof.
  intros Hn Hsteps Hfin.
  destruct (finitePoints_embed _ Hfin) as [hs ->].
  rewrite length_map in Hn.
  unfold generateBSplineCurve. rewrite length_map.
  destruct (Nat.ltb_spec (length hs) (degree + 1)) as [|_]; [lia|].
  cbv zeta. unfold knotsOrDefault.
  rewrite !generateUniformKnots_get by lia.
  rewrite knotAt_low, knotAt_high by lia.
  apply (forLoop_push_option_last
           (fun i => bSplinePoint (map embed hs)
                       (Fin 0 +! ofNat i /! ofNat steps *! (Fin 1 -! Fin 0))
                       degree
                       (Some (generateUniformKnots (length hs) degree)))).
  simpl (0 + steps)%nat.
  assert (Hs : Qc_of_Z (Z.of_nat steps) <> 0) by (apply Qc_of_Z_nonzero; lia).
  unfold ofNat, ofZ. rewrite div_Fin, sub_Fin, mul_Fin, add_Fin by done.
  replace (0 + Qc_of_Z (Z.of_nat steps) / Qc_of_Z (Z.of_nat steps) * (1 - 0))
    with (Q2Qc 1) by (by field).
  by apply bSplinePoint_top.
Qed.

Lemma generateBSplineCurve_last_point_witness :
  list.last
    (generateBSplineCurve
       [mkControlPoint zero zero one; mkControlPoint (ofZ 4) zero (ofZ 3);
        mkControlPoint (ofZ 5) (ofZ 5) one] 2 2 None)
  = Some {| pt_x := zero; pt_y := zero |}.
Proof.
  apply generateBSplineCurve_last_point.
  - simpl. lia.
  - lia.
  - repeat constructor; unfold finite; simpl; eauto.
Defined.

(** ** Weight scaling *)

Section ScalingSpline.


End ScalingSpline.




(** ** Weights that are zero or missing *)

Section FalsyWeights.

Lemma or_substituteFalsy (w : val) :
  Num.or w one = if isFalsyWeight w then one else w.
Proof.
  unfold Num.or, isFalsyWeight, truthy.
  destruct w as [q| | | |]; try done.
  rewrite !(bool_decide_eq_false_2 (Fin q = NaN)),
    !(bool_decide_eq_false_2 (Fin q = Undefined)) by done.
  rewrite !orb_false_r.
  destruct (decide (q = 0)) as [->|Hq].
  - by rewrite !bool_decide_eq_true_2.
  - rewrite !bool_decide_eq_false_2; [done| |done].
    intros [=]. done.
Qed.

Lemma accumulate_substituteFalsy (controlPoints : list ControlPoint)
    (i : nat) (t : val) (degree : nat) (knots : list val)
    (acc : val * val * val) :
  accumulate i (map substituteFalsy controlPoints) t degree knots acc
  = accumulate i controlPoints t degree knots acc.
Proof.
  revert i acc. induction controlPoints as [|p rest IH]; intros i acc;
    [done|].
  destruct acc as [[x y] w]. cbn [map accumulate]. rewrite IH.
  assert (Hw : Num.or (cp_weight (substituteFalsy p)) one
               = Num.or (cp_weight p) one).
  { rewrite !or_substituteFalsy. unfold substituteFalsy.
    destruct (isFalsyWeight (cp_weight p)) eqn:E; simpl; [|by rewrite E].
    by compute. }
  assert (Hx : cp_x (substituteFalsy p) = cp_x p)
    by (unfold substituteFalsy; by destruct (isFalsyWeight _)).
  assert (Hy : cp_y (substituteFalsy p) = cp_y p)
    by (unfold substituteFalsy; by destruct (isFalsyWeight _)).
  by rewrite Hw, Hx, Hy.
Qed.

Lemma deCasteljauBezier_many (controlPoints : list ControlPoint) (t : val) :
  (2 <= length controlPoints)%nat ->
  deCasteljauBezier controlPoints t
  = match finalPoint controlPoints t with
    | Some final =>
        if cp_weight final !== zero
        then Some {| pt_x := cp_x final /! cp_weight final;
                     pt_y := cp_y final /! cp_weight final |}
        else Some {| pt_x := cp_x final; pt_y := cp_y final |}
    | None => None
    end.
Proof.
  intros Hlen.
  by destruct controlPoints as [|p1 [|p2 rest]]; [simpl in Hlen; lia..|].
Qed.

Lemma homogeneous_zero_weight (p : ControlPoint) :
  finite (cp_x p) -> finite (cp_y p) -> cp_weight p = zero ->
  homogeneous p = {| cp_x := zero; cp_y := zero; cp_weight := zero |}.
Proof.
  intros [qx Hx] [qy Hy] Hw. unfold homogeneous.
  rewrite Hx, Hy, Hw. unfold zero. rewrite !mul_Fin.
  by rewrite !Qcmult_0_r.
Qed.

End FalsyWeights.

(** * Further properties of the evaluators *)

(** ** When a point or a curve is returned *)

Lemma finalPoint_Some (controlPoints : list ControlPoint) (t : val) :
  (1 <= length controlPoints)%nat ->
  exists final, finalPoint controlPoints t = Some final.
Proof.
  intros Hlen. destruct (finalPoint_is_Some controlPoints t Hlen) as [f Hf].
  exists f. unfold finalPoint. by rewrite length_map, Hf.
Qed.

Lemma deCasteljauBezier_is_Some (controlPoints : list ControlPoint)
    (t : val) :
  controlPoints <> [] -> is_Some (deCasteljauBezier controlPoints t).
Proof.
  destruct controlPoints as [|p1 [|p2 rest]]; [done..|]. intros _.
  rewrite deCasteljauBezier_many by (simpl; lia).
  destruct (finalPoint_Some (p1 :: p2 :: rest) t) as [f ->]; [simpl; lia|].
  by destruct (cp_weight f !== zero).
Qed.

Lemma bSplinePoint_is_Some (controlPoints : list ControlPoint) (t : val)
    (degree : nat) (knots : option (list val)) :
  (degree + 1 <= length controlPoints)%nat ->
  is_Some (bSplinePoint controlPoints t degree knots).
Proof.
  intros Hn. unfold bSplinePoint.
  destruct (Nat.eqb_spec (length controlPoints) 0) as [|_]; [lia|].
  destruct (Nat.ltb_spec (length controlPoints) (degree + 1)) as [|_]; [lia|].
  cbv zeta. destruct (accumulate _ _ _ _ _ _) as [[x y] w].
  by destruct (w !== zero).
Qed.

(** X1. [deCasteljauBezier] returns [null] on the empty sequence and on no
    other input, whatever the parameter and the numbers in the points. *)
Theorem deCasteljauBezier_null_iff
    (controlPoints : list ControlPoint) (t : val) :
  deCasteljauBezier controlPoints t = None <-> controlPoints = [].
Proof.
  split; [|by intros ->]. intros Hnone.
  destruct controlPoints as [|p rest]; [done|].
  destruct (deCasteljauBezier_is_Some (p :: rest) t) as [pt Hpt]; [done|].
  congruence.
Qed.

(** X2. [bSplinePoint] returns [null] exactly when there are fewer than
    [degree + 1] control points, whatever the parameter, the knots and the
    numbers in the points. *)
Theorem bSplinePoint_null_iff (controlPoints : list ControlPoint) (t : val)
    (degree : nat) (knots : option (list val)) :
  bSplinePoint controlPoints t degree knots = None
  <-> (length controlPoints < degree + 1)%nat.
Proof.
  split.
  - intros Hnone.
    destruct (Nat.lt_ge_cases (length controlPoints) (degree + 1))
      as [Hlt|Hge]; [done|].
    destruct (bSplinePoint_is_Some controlPoints t degree knots Hge)
      as [pt Hpt].
    congruence.
  - intros Hlt. unfold bSplinePoint.
    destruct (length controlPoints =? 0)%nat; [done|].
    by destruct (Nat.ltb_spec (length controlPoints) (degree + 1)); [|lia].
Qed.

Lemma forLoop_push_option {A : Type} (f : nat -> option A)
    (count from : nat) (arr : list A) :
  forLoop from count
    (fun i arr => match f i with Some b => push arr b | None => arr end) arr
  = arr ++ omap f (seq from count).
Proof.
  revert from arr. induction count as [|count IH]; intros from arr; simpl.
  - by rewrite app_nil_r.
  - rewrite IH. destruct (f from) as [b|]; [|done].
    unfold push. by rewrite <- app_assoc.
Qed.

Lemma omap_all_Some {A B : Type} (f : A -> option B) (g : A -> B)
    (l : list A) :
  (forall a, a ∈ l -> f a = Some (g a)) -> omap f l = g <$> l.
Proof.
  induction l as [|a l IH]; intros H; [done|].
  simpl. rewrite (H a) by apply list_elem_of_here. simpl.
  f_equal. apply IH. intros b Hb. apply H. by apply list_elem_of_further.
Qed.

Lemma length_omap_all_Some {A B : Type} (f : A -> option B) (l : list A) :
  (forall a, a ∈ l -> is_Some (f a)) -> length (omap f l) = length l.
Proof.
  induction l as [|a l IH]; intros H; [done|].
  simpl. destruct (H a) as [b ->]; [apply list_elem_of_here|]. simpl.
  f_equal. apply IH. intros c Hc. apply H. by apply list_elem_of_further.
Qed.

(** The sampled parameters and the curve as the list of their points. *)
Lemma generateBezierCurve_omap (controlPoints : list ControlPoint)
    (steps : nat) :
  (2 <= length controlPoints)%nat ->
  generateBezierCurve controlPoints steps
  = omap (fun i => deCasteljauBezier controlPoints (ofNat i /! ofNat steps))
      (seq 0 (steps + 1)).
Proof.
  intros Hlen. unfold generateBezierCurve.
  destruct (Nat.ltb_spec (length controlPoints) 2); [lia|].
  cbv zeta.
  by rewrite (forLoop_push_option
                (fun i => deCasteljauBezier controlPoints
                            (ofNat i /! ofNat steps))).
Qed.

(** X3. [generateBezierCurve] returns [steps + 1] points on two control
    points or more and none otherwise: no sample is ever dropped, also for
    [steps = 0] and for points that hold [NaN]. *)
Theorem generateBezierCurve_length (controlPoints : list ControlPoint)
    (steps : nat) :
  length (generateBezierCurve controlPoints steps)
  = if (length controlPoints <? 2)%nat then 0%nat else (steps + 1)%nat.
Proof.
  destruct (Nat.ltb_spec (length controlPoints) 2) as [Hlt|Hge].
  - unfold generateBezierCurve.
    by destruct (Nat.ltb_spec (length controlPoints) 2); [|lia].
  - rewrite generateBezierCurve_omap by done.
    rewrite length_omap_all_Some; [by rewrite length_seq|].
    intros i _. apply deCasteljauBezier_is_Some.
    intros ->. simpl in Hge. lia.
Qed.

Lemma generateBSplineCurve_omap (controlPoints : list ControlPoint)
    (degree steps : nat) (knots : option (list val)) :
  (degree + 1 <= length controlPoints)%nat ->
  let n := length controlPoints in
  let knots := knotsOrDefault knots n degree in
  generateBSplineCurve controlPoints degree steps (Some knots)
  = omap (fun i =>
            bSplinePoint controlPoints
              (knots.[degree]
               +! (ofNat i /! ofNat steps) *! (knots.[n] -! knots.[degree]))
              degree (Some knots))
      (seq 0 (steps + 1)).
Proof.
  intros Hlen n knots'. unfold generateBSplineCurve.
  destruct (Nat.ltb_spec (length controlPoints) (degree + 1)); [lia|].
  cbv zeta. fold n.
  change (knotsOrDefault (Some knots') n degree) with knots'.
  by rewrite (forLoop_push_option
                (fun i => bSplinePoint controlPoints
                            (knots'.[degree]
                             +! (ofNat i /! ofNat steps)
                                *! (knots'.[n] -! knots'.[degree]))
                            degree (Some knots'))).
Qed.

(** X4. [generateBSplineCurve] returns [steps + 1] points when there are at
    least [degree + 1] control points and none otherwise, for the generated
    knots and for any knots passed in. *)
Theorem generateBSplineCurve_length (controlPoints : list ControlPoint)
    (degree steps : nat) (knots : option (list val)) :
  length (generateBSplineCurve controlPoints degree steps knots)
  = if (length controlPoints <? degree + 1)%nat then 0%nat
    else (steps + 1)%nat.
Proof.
  destruct (Nat.ltb_spec (length controlPoints) (degree + 1)) as [Hlt|Hge].
  - unfold generateBSplineCurve.
    by destruct (Nat.ltb_spec (length controlPoints) (degree + 1)); [|lia].
  - assert (Heq : generateBSplineCurve controlPoints degree steps knots
                  = generateBSplineCurve controlPoints degree steps
                      (Some (knotsOrDefault knots (length controlPoints)
                               degree))).
    { unfold generateBSplineCurve. by destruct knots. }
    rewrite Heq, generateBSplineCurve_omap by done.
    rewrite length_omap_all_Some; [by rewrite length_seq|].
    intros i _. by apply bSplinePoint_is_Some.
Qed.

(** ** End points and samples of a Bezier curve *)

Lemma project_lift (a : HPoint) :
  project (lift a)
  = if bool_decide (hw a = 0) then {| pt_x := zero; pt_y := zero |}
    else {| pt_x := Fin (hx a); pt_y := Fin (hy a) |}.
Proof.
  unfold project, lift; simpl. case_bool_decide as Hw.
  - rewrite Hw, !Qcmult_0_r. done.
  - f_equal; f_equal; by field.
Qed.



Lemma omap_lookup_all_Some {A B : Type} (f : A -> option B) (l : list A)
    (i : nat) :
  (forall a, a ∈ l -> is_Some (f a)) -> omap f l !! i = l !! i ≫= f.
Proof.
  revert i. induction l as [|a l IH]; intros i H; [done|].
  simpl. destruct (H a) as [b Hb]; [apply list_elem_of_here|].
  rewrite Hb. simpl. destruct i as [|i]; simpl; [done|].
  apply IH. intros c Hc. apply H. by apply list_elem_of_further.
Qed.

Lemma ofNat_ratio (i steps : nat) :
  (1 <= steps)%nat ->
  ofNat i /! ofNat steps
  = Fin (Qc_of_Z (Z.of_nat i) / Qc_of_Z (Z.of_nat steps)).
Proof.
  intros Hs. unfold ofNat, ofZ. apply div_Fin, Qc_of_Z_nonzero. lia.
Qed.

Lemma generateBezierCurve_lookup (controlPoints : list ControlPoint)
    (steps i : nat) :
  (2 <= length controlPoints)%nat -> (1 <= steps)%nat -> (i <= steps)%nat ->
  generateBezierCurve controlPoints steps !! i
  = deCasteljauBezier controlPoints
      (Fin (Qc_of_Z (Z.of_nat i) / Qc_of_Z (Z.of_nat steps))).
Proof.
  intros Hlen Hsteps Hi. rewrite generateBezierCurve_omap by done.
  rewrite omap_lookup_all_Some.
  - rewrite lookup_seq_lt by lia. cbn [mbind option_bind Nat.add].
    by rewrite ofNat_ratio.
  - intros k _. apply deCasteljauBezier_is_Some.
    intros ->. simpl in Hlen. lia.
Qed.

(** X6. For at least one step, sample [i] of [generateBezierCurve] is the
    curve point at the exact parameter [i / steps], for [i = 0 .. steps];
    the first sample is the point at [t = 0] and the last one the point at
    [t = 1]. *)
Theorem generateBezierCurve_sample (controlPoints : list ControlPoint)
    (steps i : nat) :
  (2 <= length controlPoints)%nat -> (1 <= steps)%nat -> (i <= steps)%nat ->
  generateBezierCurve controlPoints steps !! i
  = deCasteljauBezier controlPoints
      (Fin (Qc_of_Z (Z.of_nat i) / Qc_of_Z (Z.of_nat steps)))
  /\ head (generateBezierCurve controlPoints steps)
     = deCasteljauBezier controlPoints zero
  /\ list.last (generateBezierCurve controlPoints steps)
     = deCasteljauBezier controlPoints one.
Proof.
  intros Hlen Hsteps Hi.
  assert (Hat : forall j, (j <= steps)%nat ->
            generateBezierCurve controlPoints steps !! j
            = deCasteljauBezier controlPoints
                (Fin (Qc_of_Z (Z.of_nat j) / Qc_of_Z (Z.of_nat steps)))).
  { intros j Hj. by apply generateBezierCurve_lookup. }
  assert (Hs : Qc_of_Z (Z.of_nat steps) <> 0)
    by (apply Qc_of_Z_nonzero; lia).
  split; [by apply Hat|]. split.
  - rewrite head_lookup, Hat by lia. unfold zero. do 2 f_equal.
    change (Z.of_nat 0) with 0%Z. rewrite Z2Qc_inj_0. by field.
  - rewrite last_lookup.
    assert (Hlength : length (generateBezierCurve controlPoints steps)
                      = (steps + 1)%nat).
    { rewrite generateBezierCurve_omap by done.
      rewrite length_omap_all_Some; [by rewrite length_seq|].
      intros k _. apply deCasteljauBezier_is_Some.
      intros ->. simpl in Hlen. lia. }
    rewrite Hlength.
    replace (Init.Nat.pred (steps + 1)) with steps by lia.
    rewrite Hat by lia. unfold one. do 2 f_equal. by field.
Qed.

Lemma generateBezierCurve_sample_witness :
  let controlPoints :=
    [mkControlPoint zero zero one; mkControlPoint (ofZ 4) zero (ofZ 3)] in
  generateBezierCurve controlPoints 2 !! 1%nat
  = deCasteljauBezier controlPoints
      (Fin (Qc_of_Z (Z.of_nat 1) / Qc_of_Z (Z.of_nat 2))).
Proof.
  intros controlPoints.
  apply (generateBezierCurve_sample controlPoints 2 1); simpl; lia.
Defined.

(** ** The B-Spline evaluator on finite points and generated knots *)

(** Order facts on [Qc], decided on the underlying fractions. *)
Ltac qc_order :=
  unfold Qcle, Qclt, Qcminus, Qcdiv in *; simpl in *;
  rewrite ?Qred_correct in *; nra.

Lemma clampToDomain_exact (n degree : nat) (t : Qc) :
  (degree + 1 <= n)%nat ->
  clampToDomain (generateUniformKnots n degree) n degree (Fin t)
  = Fin (clampUnit t).
Proof.
  intros Hn. unfold clampToDomain, clampUnit.
  rewrite !generateUniformKnots_get by lia.
  rewrite knotAt_low, knotAt_high by lia.
  by rewrite min_Fin, max_Fin.
Qed.

Lemma bSplinePoint_exact (hs : list HPoint) (degree : nat) (t : Qc) :
  (degree + 1 <= length hs)%nat ->
  bSplinePoint (map embed hs) (Fin t) degree None
  = Some (projectSums (splineSums hs degree t)).
Proof.
  intros Hn. unfold bSplinePoint. rewrite length_map.
  destruct (Nat.eqb_spec (length hs) 0) as [|_]; [lia|].
  destruct (Nat.ltb_spec (length hs) (degree + 1)) as [|_]; [lia|].
  cbv zeta. unfold knotsOrDefault. rewrite clampToDomain_exact by done.
  change (zero, zero, zero) with (embed3 (0, 0, 0)).
  rewrite (accumulate_exact
             (fun i => basisQ (knotAt (length hs) degree) i (degree + 1)
                         (clampUnit t)))
    by (intros i Hi; apply basisFunction_generated; lia).
  fold (splineSums hs degree t).
  destruct (splineSums hs degree t) as [[X Y] W].
  cbn [embed3 projectSums]. unfold zero. rewrite strictNe_Fin.
  case_bool_decide; cbn [negb]; [done|]. by rewrite !div_Fin.
Qed.

Lemma bSplinePoint_generated_knots (controlPoints : list ControlPoint)
    (t : val) (degree : nat) :
  bSplinePoint controlPoints t degree
    (Some (generateUniformKnots (length controlPoints) degree))
  = bSplinePoint controlPoints t degree None.
Proof. reflexivity. Qed.

Lemma generateBSplineCurve_lookup (controlPoints : list ControlPoint)
    (degree steps i : nat) :
  (degree + 1 <= length controlPoints)%nat ->
  (1 <= steps)%nat -> (i <= steps)%nat ->
  generateBSplineCurve controlPoints degree steps None !! i
  = bSplinePoint controlPoints
      (Fin (Qc_of_Z (Z.of_nat i) / Qc_of_Z (Z.of_nat steps))) degree None.
Proof.
  intros Hn Hsteps Hi.
  change (generateBSplineCurve controlPoints degree steps None)
    with (generateBSplineCurve controlPoints degree steps
            (Some (knotsOrDefault None (length controlPoints) degree))).
  rewrite generateBSplineCurve_omap by done. cbv zeta.
  unfold knotsOrDefault.
  rewrite omap_lookup_all_Some.
  - rewrite lookup_seq_lt by lia. cbn [mbind option_bind Nat.add].
    rewrite !generateUniformKnots_get by lia.
    rewrite knotAt_low, knotAt_high by lia.
    rewrite ofNat_ratio, sub_Fin, mul_Fin, add_Fin by done.
    rewrite bSplinePoint_generated_knots. do 2 f_equal. ring.
  - intros k _. by apply bSplinePoint_is_Some.
Qed.

(** X7. On the generated knots and for at least one step, sample [i] of
    [generateBSplineCurve] is the point of [bSplinePoint] at the exact
    parameter [i / steps], [i = 0 .. steps]: the sampled domain is
    [[0, 1]], the first sample is the point at [t = 0] and the last one
    the point at [t = 1]. *)
Theorem generateBSplineCurve_sample (controlPoints : list ControlPoint)
    (degree steps i : nat) :
  (degree + 1 <= length controlPoints)%nat ->
  (1 <= steps)%nat -> (i <= steps)%nat ->
  generateBSplineCurve controlPoints degree steps None !! i
  = bSplinePoint controlPoints
      (Fin (Qc_of_Z (Z.of_nat i) / Qc_of_Z (Z.of_nat steps))) degree None
  /\ head (generateBSplineCurve controlPoints degree steps None)
     = bSplinePoint controlPoints zero degree None
  /\ list.last (generateBSplineCurve controlPoints degree steps None)
     = bSplinePoint controlPoints one degree None.
Proof.
  intros Hn Hsteps Hi.
  assert (Hs : Qc_of_Z (Z.of_nat steps) <> 0)
    by (apply Qc_of_Z_nonzero; lia).
  split; [by apply generateBSplineCurve_lookup|]. split.
  - rewrite head_lookup, generateBSplineCurve_lookup by lia.
    unfold zero. do 2 f_equal.
    change (Z.of_nat 0) with 0%Z. rewrite Z2Qc_inj_0. by field.
  - rewrite last_lookup.
    assert (Hlength :
      length (generateBSplineCurve controlPoints degree steps None)
      = (steps + 1)%nat).
    { change (generateBSplineCurve controlPoints degree steps None)
        with (generateBSplineCurve controlPoints degree steps
                (Some (knotsOrDefault None (length controlPoints) degree))).
      rewrite generateBSplineCurve_omap by done. cbv zeta.
      rewrite length_omap_all_Some; [by rewrite length_seq|].
      intros k _. by apply bSplinePoint_is_Some. }
    rewrite Hlength.
    replace (Init.Nat.pred (steps + 1)) with steps by lia.
    rewrite generateBSplineCurve_lookup by lia.
    unfold one. do 2 f_equal. by field.
Qed.

Lemma generateBSplineCurve_sample_witness :
  let controlPoints :=
    [mkControlPoint zero zero one; mkControlPoint (ofZ 4) zero (ofZ 3);
     mkControlPoint (ofZ 5) (ofZ 5) one] in
  generateBSplineCurve controlPoints 2 2 None !! 1%nat
  = bSplinePoint controlPoints
      (Fin (Qc_of_Z (Z.of_nat 1) / Qc_of_Z (Z.of_nat 2))) 2 None.
Proof.
  intros controlPoints.
  apply (generateBSplineCurve_sample controlPoints 2 2 1); simpl; lia.
Defined.

(** ** Sign and size of the basis functions *)

Section BasisSign.

Variable U : nat -> Qc.
Hypothesis U_mono : forall a b, (a <= b)%nat -> U a <= U b.










End BasisSign.



Lemma knotAt_pos (n degree j : nat) :
  (degree + 1 <= n)%nat -> (degree < j)%nat -> 0 < knotAt n degree j.
Proof.
  intros Hn Hj. unfold knotAt. rewrite <- (interiorKnot_0 n degree).
  apply interiorKnot_lt; lia.
Qed.





(** ** The two ends of the B-Spline domain *)

Lemma clampUnit_low (t : Qc) : t <= 0 -> clampUnit t = 0.
Proof.
  intros Ht. unfold clampUnit.
  rewrite (bool_decide_eq_false_2 (1 <= t)) by (intros H; qc_order).
  case_bool_decide; [|done]. by apply Qcle_antisym.
Qed.

Lemma clampUnit_high (t : Qc) : 1 <= t -> clampUnit t = 1.
Proof.
  intros Ht. unfold clampUnit. rewrite (bool_decide_eq_true_2 (1 <= t)) by done.
  rewrite bool_decide_eq_true_2; [done|]. qc_order.
Qed.


(** At [t = 0] only the first basis function of each order is alive. *)
Lemma basisQ_at_zero (n degree : nat) :
  (degree + 1 <= n)%nat ->
  forall k, (1 <= k)%nat -> (k <= degree + 1)%nat ->
  forall i,
    basisQ (knotAt n degree) i k 0
    = if decide (i = degree + 1 - k)%nat then 1 else 0.
Proof.
  intros Hn. induction k as [|k1 IH]; intros Hk Hkd i; [lia|].
  destruct k1 as [|m].
  - rewrite basisQ_1. replace (degree + 1 - 1)%nat with degree by lia.
    destruct (decide (i = degree)) as [->|Hne].
    + rewrite knotAt_low by lia.
      rewrite !bool_decide_eq_true_2; [done| |apply Qcle_refl].
      apply knotAt_pos; lia.
    + destruct (Nat.lt_ge_cases i degree) as [Hlt|Hge].
      * rewrite (knotAt_low n degree Hn (S i)) by lia.
        rewrite (bool_decide_eq_false_2 (0 < 0)); [|by apply Qcle_not_lt].
        by rewrite andb_false_r.
      * rewrite (bool_decide_eq_false_2 (knotAt n degree i <= 0)); [done|].
        apply Qclt_not_le, knotAt_pos; lia.
  - rewrite basisQ_SS, (IH ltac:(lia) ltac:(lia) i),
      (IH ltac:(lia) ltac:(lia) (S i)).
    destruct (decide (i = degree + 1 - S (S m))%nat) as [Hi|Hi].
    + rewrite (decide_False (P := (i = degree + 1 - S m)%nat)) by lia.
      rewrite (decide_True (P := (S i = degree + 1 - S m)%nat)) by lia.
      unfold coefR.
      replace (S i + S m)%nat with (degree + 1)%nat by lia.
      rewrite (knotAt_low n degree Hn (S i)) by lia.
      pose proof (knotAt_pos n degree (degree + 1) Hn ltac:(lia)) as Hpos.
      assert (Hne : knotAt n degree (degree + 1) <> 0).
      { intros Heq. rewrite Heq in Hpos. by apply Qclt_not_eq in Hpos. }
      rewrite bool_decide_eq_false_2 by done. by field.
    + rewrite (decide_False (P := (S i = degree + 1 - S m)%nat)) by lia.
      destruct (decide (i = degree + 1 - S m)%nat) as [Hi'|Hi']; [|ring].
      unfold coefL. rewrite (knotAt_low n degree Hn i) by lia.
      case_bool_decide as Hne; [ring|]. by field.
Qed.

Lemma effectiveWeight_nonzero (w : Qc) : effectiveWeight w <> 0.
Proof.
  unfold effectiveWeight. case_bool_decide; [apply Q_apart_0_1|done].
Qed.

Lemma projectSums_single (x y w : Qc) :
  w <> 0 ->
  projectSums (0 + x * (1 * w), 0 + y * (1 * w), 0 + 1 * w)
  = {| pt_x := Fin x; pt_y := Fin y |}.
Proof.
  intros Hw. unfold projectSums.
  rewrite bool_decide_eq_false_2 by (by rewrite Qcplus_0_l, Qcmult_1_l).
  f_equal; f_equal; by field.
Qed.

Lemma splineSums_start (h : HPoint) (rest : list HPoint) (degree : nat)
    (t : Qc) :
  (degree + 1 <= length (h :: rest))%nat -> t <= 0 ->
  projectSums (splineSums (h :: rest) degree t)
  = {| pt_x := Fin (hx h); pt_y := Fin (hy h) |}.
Proof.
  intros Hn Ht. unfold splineSums. rewrite clampUnit_low by done.
  set (n := length (h :: rest)) in *.
  cbn [accumulateQ].
  rewrite accumulateQ_zero_basis.
  2:{ intros i Hi. rewrite (basisQ_at_zero n degree Hn) by lia.
      rewrite decide_False; [done|lia]. }
  rewrite (basisQ_at_zero n degree Hn) by lia.
  rewrite decide_True by lia.
  apply projectSums_single, effectiveWeight_nonzero.
Qed.

Lemma half_basis (i : nat) :
  (i < 2)%nat -> basisQ (knotAt 2 1) i 2 (clampUnit (1 / 2)) = 1 / 2.
Proof.
  intros Hi. destruct i as [|[|i]]; [| |lia]; apply Qc_is_canon; reflexivity.
Qed.

Lemma start_zero_weight (controlPoints : list ControlPoint)
    (first : ControlPoint) (degree : nat) :
  (2 <= length controlPoints)%nat ->
  (degree + 1 <= length controlPoints)%nat ->
  Forall finitePoint controlPoints ->
  head controlPoints = Some first -> cp_weight first = zero ->
  bSplinePoint controlPoints zero degree None
  = Some {| pt_x := cp_x first; pt_y := cp_y first |}
  /\ deCasteljauBezier controlPoints zero
     = Some {| pt_x := zero; pt_y := zero |}.
Proof.
  intros Hlen Hn Hfin Hfirst Hw.
  destruct (finitePoints_embed _ Hfin) as [hs ->].
  rewrite length_map in Hlen, Hn.
  destruct hs as [|h rest]; [simpl in Hlen; lia|].
  simpl in Hfirst. simplify_eq. split.
  - unfold zero. rewrite bSplinePoint_exact by done.
    f_equal. apply splineSums_start; [done|apply Qcle_refl].
  - unfold zero. rewrite deCasteljauBezier_embed by done.
    rewrite lerpLoop_0 by (rewrite length_map; lia).
    cbn [map take lookup list_lookup option_map fmap option_fmap].
    simpl. rewrite project_lift.
    injection Hw as Hw. by rewrite bool_decide_eq_true_2.
Qed.

Lemma midpoint_zero_weight (p q : ControlPoint) :
  finitePoint p -> finitePoint q ->
  cp_weight p = zero -> cp_weight q = one ->
  bSplinePoint [p; q] (Fin (1 / 2)) 1 None
  = Some {| pt_x := cp_x p *! Fin (1 / 2) +! cp_x q *! Fin (1 / 2);
            pt_y := cp_y p *! Fin (1 / 2) +! cp_y q *! Fin (1 / 2) |}
  /\ deCasteljauBezier [p; q] (Fin (1 / 2))
     = Some {| pt_x := (cp_x q *! Fin (1 / 2)) /! Fin (1 / 2);
               pt_y := (cp_y q *! Fin (1 / 2)) /! Fin (1 / 2) |}.
Proof.
  intros Hp Hq Hwp Hwq.
  destruct (finitePoint_embed p Hp) as [[xp yp wp] ->].
  destruct (finitePoint_embed q Hq) as [[xq yq wq] ->].
  cbn [embed cp_weight cp_x cp_y hx hy hw] in *.
  injection Hwp as ->. injection Hwq as ->.
  assert (Hhalf : (1 / 2 : Qc) <> 0) by compute_done.
  split.
  - change [embed (mkH xp yp 0); embed (mkH xq yq 1)]
      with (map embed [mkH xp yp 0; mkH xq yq 1]).
    rewrite bSplinePoint_exact by (simpl; lia).
    unfold splineSums. cbn [length accumulateQ hx hy hw].
    rewrite !half_basis by lia.
    unfold effectiveWeight.
    rewrite bool_decide_eq_true_2 by done.
    rewrite bool_decide_eq_false_2 by apply Q_apart_0_1.
    unfold projectSums.
    assert (Hone : 0 + 1 / 2 * 1 + 1 / 2 * 1 = 1) by (by field).
    rewrite Hone. rewrite bool_decide_eq_false_2 by apply Q_apart_0_1.
    rewrite !mul_Fin, !add_Fin. f_equal.
    f_equal; f_equal; field; split; compute_done.
  - change [embed (mkH xp yp 0); embed (mkH xq yq 1)]
      with (map embed [mkH xp yp 0; mkH xq yq 1]).
    rewrite deCasteljauBezier_embed by (simpl; lia).
    cbn. rewrite !bool_decide_eq_false_2 by done.
    unfold project, lerp, lift. cbn [hx hy hw].
    rewrite bool_decide_eq_false_2.
    + f_equal. f_equal; f_equal; field; split; compute_done.
    + intros E. apply Hhalf. rewrite <- E. field. compute_done.
Qed.

(** C10. The two evaluators treat a weight of zero differently.
    [bSplinePoint] reads a weight that is zero, [NaN] or missing as 1: it
    returns what it returns on the sequence with those weights replaced by
    1.  [deCasteljauBezier] multiplies by the weight as stored: a finite
    point of weight 0 is lifted to the homogeneous point (0, 0, 0), and on
    two points or more its coordinates have no effect on the result.
    Where the two differ: when the first point has weight 0 (the others
    weight 1), at [t = 0] the B-Spline evaluator returns that point, as
    for weight 1, and the Bezier evaluator returns the origin; and for two
    points [p] of weight 0 and [q] of weight 1, at [t = 1/2] the B-Spline
    evaluator returns the sum of the halves of [p] and [q], [p] counting
    with weight 1, and the Bezier evaluator returns half of [q] divided by
    a half, [p] counting for nothing. *)
Theorem zero_weight_treatment :
  (forall controlPoints t degree knots,
      bSplinePoint controlPoints t degree knots
      = bSplinePoint (map substituteFalsy controlPoints) t degree knots)
  /\ (forall p,
        finite (cp_x p) -> finite (cp_y p) -> cp_weight p = zero ->
        substituteFalsy p
        = {| cp_x := cp_x p; cp_y := cp_y p; cp_weight := one |}
        /\ homogeneous p
           = {| cp_x := zero; cp_y := zero; cp_weight := zero |})
  /\ (forall before after p p' t,
        finite (cp_x p) -> finite (cp_y p) -> cp_weight p = zero ->
        finite (cp_x p') -> finite (cp_y p') -> cp_weight p' = zero ->
        (1 <= length before + length after)%nat ->
        deCasteljauBezier (before ++ p :: after) t
        = deCasteljauBezier (before ++ p' :: after) t)
  /\ (forall controlPoints first degree,
        (2 <= length controlPoints)%nat ->
        (degree + 1 <= length controlPoints)%nat ->
        Forall finitePoint controlPoints ->
        head controlPoints = Some first -> cp_weight first = zero ->
        Forall (fun p => cp_weight p = one) (tail controlPoints) ->
        bSplinePoint controlPoints zero degree None
        = Some {| pt_x := cp_x first; pt_y := cp_y first |}
        /\ deCasteljauBezier controlPoints zero
           = Some {| pt_x := zero; pt_y := zero |})
  /\ (forall p q,
        finitePoint p -> finitePoint q ->
        cp_weight p = zero -> cp_weight q = one ->
        bSplinePoint [p; q] (Fin (1 / 2)) 1 None
        = Some {| pt_x := cp_x p *! Fin (1 / 2) +! cp_x q *! Fin (1 / 2);
                  pt_y := cp_y p *! Fin (1 / 2) +! cp_y q *! Fin (1 / 2) |}
        /\ deCasteljauBezier [p; q] (Fin (1 / 2))
           = Some {| pt_x := (cp_x q *! Fin (1 / 2)) /! Fin (1 / 2);
                     pt_y := (cp_y q *! Fin (1 / 2)) /! Fin (1 / 2) |}).
Proof.
  split; [|split; [|split; [|split]]].
  - intros controlPoints t degree knots. unfold bSplinePoint.
    rewrite length_map.
    destruct (length controlPoints =? 0)%nat; [done|].
    destruct (length controlPoints <? degree + 1)%nat; [done|].
    cbv zeta. by rewrite accumulate_substituteFalsy.
  - intros p Hx Hy Hw. split; [|by apply homogeneous_zero_weight].
    unfold substituteFalsy. rewrite Hw. by compute.
  - intros before after p p' t Hx Hy Hw Hx' Hy' Hw' Hlen.
    rewrite !deCasteljauBezier_many by (rewrite length_app; simpl; lia).
    unfold finalPoint. rewrite !map_app, !length_app. simpl.
    by rewrite !homogeneous_zero_weight.
  - intros controlPoints first degree Hlen Hn Hfin Hfirst Hw _.
    by apply start_zero_weight.
  - intros p q Hp Hq Hwp Hwq. by apply midpoint_zero_weight.
Qed.

Lemma zero_weight_treatment_witness :
  let p := mkControlPoint (ofZ 4) (ofZ 2) zero in
  let q := mkControlPoint one one one in
  (bSplinePoint [p; q] zero 1 None
   = Some {| pt_x := ofZ 4; pt_y := ofZ 2 |}
   /\ deCasteljauBezier [p; q] zero = Some {| pt_x := zero; pt_y := zero |})
  /\ (bSplinePoint [p; q] (Fin (1 / 2)) 1 None
      = Some {| pt_x := ofZ 4 *! Fin (1 / 2) +! one *! Fin (1 / 2);
                pt_y := ofZ 2 *! Fin (1 / 2) +! one *! Fin (1 / 2) |}
      /\ deCasteljauBezier [p; q] (Fin (1 / 2))
         = Some {| pt_x := (one *! Fin (1 / 2)) /! Fin (1 / 2);
                   pt_y := (one *! Fin (1 / 2)) /! Fin (1 / 2) |})
  /\ deCasteljauBezier [q; p] (Fin (1 / 2))
     = deCasteljauBezier [q; mkControlPoint zero zero zero] (Fin (1 / 2)).
Proof.
  intros p q.
  destruct zero_weight_treatment as (_ & _ & H3 & H4 & H5).
  assert (Hp : finitePoint p) by (repeat split; unfold finite; simpl; eauto).
  assert (Hq : finitePoint q) by (repeat split; unfold finite; simpl; eauto).
  split; [|split].
  - apply (H4 [p; q] p 1%nat).
    + simpl. lia.
    + simpl. lia.
    + apply List.Forall_cons; [exact Hp|].
      apply List.Forall_cons; [exact Hq|apply List.Forall_nil].
    + reflexivity.
    + reflexivity.
    + apply List.Forall_cons; [reflexivity|apply List.Forall_nil].
  - by apply (H5 p q).
  - apply (H3 [q] [] p (mkControlPoint zero zero zero));
      try done; try (unfold finite; simpl; eauto).
Defined.



(** X11. At and beyond the upper end of the domain the B-Spline evaluator
    returns the origin: on the generated knots, for finite control points
    and every finite parameter [t >= 1], [bSplinePoint] returns (0, 0). *)
Theorem bSplinePoint_beyond_end (controlPoints : list ControlPoint)
    (t : val) (degree : nat) :
  (degree + 1 <= length controlPoints)%nat ->
  Forall finitePoint controlPoints ->
  finite t -> one <=! t = true ->
  bSplinePoint controlPoints t degree None
  = Some {| pt_x := zero; pt_y := zero |}.
Proof.
  intros Hn Hfin [q ->] Ht.
  destruct (finitePoints_embed _ Hfin) as [hs ->].
  rewrite length_map in Hn. unfold one in Ht. rewrite le_Fin in Ht.
  apply bool_decide_eq_true_1 in Ht.
  rewrite bSplinePoint_exact by done. f_equal.
  unfold splineSums. rewrite clampUnit_high by done.
  rewrite accumulateQ_zero_basis by (intros i _; by apply basisQ_at_top).
  unfold projectSums. by rewrite bool_decide_eq_true_2.
Qed.

Lemma bSplinePoint_beyond_end_witness :
  bSplinePoint
    [mkControlPoint (ofZ 7) (ofZ 2) (ofZ 3); mkControlPoint (ofZ 4) zero one;
     mkControlPoint (ofZ 5) (ofZ 5) one] (ofZ 2) 2 None
  = Some {| pt_x := zero; pt_y := zero |}.
Proof.
  apply bSplinePoint_beyond_end.
  - simpl. lia.
  - repeat constructor; simpl; unfold finite; eauto.
  - unfold finite, ofZ. eauto.
  - vm_compute. reflexivity.
Defined.

(** ** The convex hull property of the Bezier evaluator *)

Section BezierHull.

Variables xlo xhi ylo yhi : Qc.






End BezierHull.







(** ** The convex hull property of the B-Spline evaluator *)

Section SplineHull.

Variables xlo xhi ylo yhi wmin : Qc.
Hypothesis wmin_pos : 0 < wmin.



End SplineHull.





(** ** Local control *)

Lemma accumulateQ_local (b : nat -> Qc) (hs1 hs2 : list HPoint) (i : nat)
    (acc : Qc * Qc * Qc) :
  length hs1 = length hs2 ->
  (forall j h1 h2,
      hs1 !! j = Some h1 -> hs2 !! j = Some h2 -> h1 <> h2 ->
      b (i + j)%nat = 0) ->
  accumulateQ b i hs1 acc = accumulateQ b i hs2 acc.
Proof.
  revert hs2 i acc.
  induction hs1 as [|h1 rest1 IH]; intros [|h2 rest2] i acc Hlen Hdiff;
    try done.
  destruct acc as [[x y] w]. cbn [accumulateQ].
  destruct (decide (h1 = h2)) as [->|Hne].
  - apply IH; [by injection Hlen|].
    intros j a1 a2 Ha1 Ha2 Ha.
    replace (S i + j)%nat with (i + S j)%nat by lia.
    by apply (Hdiff (S j) a1 a2).
  - pose proof (Hdiff 0%nat h1 h2 eq_refl eq_refl Hne) as Hb.
    rewrite Nat.add_0_r in Hb. rewrite Hb, !Qcmult_0_l, !Qcmult_0_r.
    apply IH; [by injection Hlen|].
    intros j a1 a2 Ha1 Ha2 Ha.
    replace (S i + j)%nat with (i + S j)%nat by lia.
    by apply (Hdiff (S j) a1 a2).
Qed.

Lemma embed_inj (a b : HPoint) : embed a = embed b -> a = b.
Proof.
  destruct a, b. unfold embed; simpl. intros [=]. by subst.
Qed.

(** X14. Local control.  On the generated knots, replacing control point
    [i0] by any other finite point (coordinates and weight) leaves
    [bSplinePoint] unchanged at every finite parameter whose clamped value
    is below [knots[i0]] or not below [knots[i0 + degree + 1]]. *)
Theorem bSplinePoint_local_control
    (controlPoints1 controlPoints2 : list ControlPoint) (i0 : nat) (t : val)
    (degree : nat) :
  let n := length controlPoints1 in
  let knots := generateUniformKnots n degree in
  let tc := clampToDomain knots n degree t in
  (degree + 1 <= n)%nat -> (i0 < n)%nat ->
  Forall finitePoint controlPoints1 -> Forall finitePoint controlPoints2 ->
  length controlPoints2 = n ->
  (forall j, j <> i0 -> controlPoints1 !! j = controlPoints2 !! j) ->
  finite t ->
  tc <! knots.[i0] = true \/ knots.[i0 + degree + 1] <=! tc = true ->
  bSplinePoint controlPoints1 t degree None
  = bSplinePoint controlPoints2 t degree None.
Proof.
  intros n knots tc Hn Hi0 Hfin1 Hfin2 Hlen Hsame [q ->] Hout.
  subst tc knots n.
  destruct (finitePoints_embed _ Hfin1) as [hs1 ->].
  destruct (finitePoints_embed _ Hfin2) as [hs2 ->].
  rewrite !length_map in *.
  rewrite clampToDomain_exact in Hout by done.
  rewrite !generateUniformKnots_get in Hout by lia.
  rewrite lt_Fin, le_Fin in Hout.
  rewrite !bSplinePoint_exact by lia. f_equal. f_equal.
  unfold splineSums. rewrite Hlen.
  apply accumulateQ_local; [done|].
  intros j h1 h2 Hj1 Hj2 Hne. simpl.
  destruct (decide (j = i0)) as [->|Hji].
  - apply (basisQ_outside _ (knotAt_mono (length hs1) degree Hn)).
    destruct Hout as [H|H]; apply bool_decide_eq_true_1 in H; [by left|].
    right.
    by replace (i0 + (degree + 1))%nat with (i0 + degree + 1)%nat by lia.
  - exfalso. apply Hne, embed_inj.
    specialize (Hsame j Hji).
    change (map embed ?l) with (embed <$> l) in Hsame.
    rewrite !list_lookup_fmap, Hj1, Hj2 in Hsame. simpl in Hsame.
    congruence.
Qed.

Lemma bSplinePoint_local_control_witness :
  bSplinePoint
    [mkControlPoint zero zero one; mkControlPoint (ofZ 4) zero (ofZ 3);
     mkControlPoint (ofZ 5) (ofZ 5) one; mkControlPoint (ofZ 9) one one]
    (Fin (Qc_of_Z 3 / Qc_of_Z 4)) 2 None
  = bSplinePoint
      [mkControlPoint (ofZ 8) (ofZ 8) (ofZ 2);
       mkControlPoint (ofZ 4) zero (ofZ 3);
       mkControlPoint (ofZ 5) (ofZ 5) one; mkControlPoint (ofZ 9) one one]
      (Fin (Qc_of_Z 3 / Qc_of_Z 4)) 2 None.
Proof.
  apply (bSplinePoint_local_control _ _ 0).
  - simpl. lia.
  - simpl. lia.
  - repeat constructor; simpl; unfold finite; eauto.
  - repeat constructor; simpl; unfold finite; eauto.
  - reflexivity.
  - intros [|j] Hj; [done|reflexivity].
  - unfold finite. eauto.
  - right. vm_compute. reflexivity.
Defined.

(** * Nearest control point *)

(** ** The order of numbers *)

Section NumberOrder.

Implicit Types a b c : val.

Lemma lt_irrefl a : a <! a = false.
Proof.
  destruct a as [q| | | |]; try done. rewrite lt_Fin.
  apply bool_decide_eq_false_2. intros H. by apply Qclt_not_eq in H.
Qed.

Lemma lt_trans a b c : a <! b = true -> b <! c = true -> a <! c = true.
Proof.
  destruct a as [p| | | |], b as [q| | | |], c as [r| | | |]; try done.
  rewrite !lt_Fin. intros H1 H2.
  apply bool_decide_eq_true_1 in H1, H2. apply bool_decide_eq_true_2.
  by eapply Qclt_trans.
Qed.

Lemma lt_is_number a b :
  a <! b = true -> isNaN a = false /\ isNaN b = false.
Proof. by destruct a, b. Qed.

Lemma not_lt_le a b :
  isNaN a = false -> isNaN b = false -> a <! b = false -> b <=! a = true.
Proof.
  destruct a as [p| | | |], b as [q| | | |]; try done.
  rewrite lt_Fin, le_Fin. intros _ _ H.
  apply bool_decide_eq_false_1 in H. apply bool_decide_eq_true_2.
  by apply Qcnot_lt_le.
Qed.

Lemma lt_le_trans a b c : a <! b = true -> b <=! c = true -> a <! c = true.
Proof.
  destruct a as [p| | | |], b as [q| | | |], c as [r| | | |]; try done.
  rewrite !lt_Fin, le_Fin. intros H1 H2.
  apply bool_decide_eq_true_1 in H1, H2. apply bool_decide_eq_true_2.
  by eapply Qclt_le_trans.
Qed.

End NumberOrder.

(** ** The scan *)

Section Nearest.

Variable sqrt : val -> val.
Variable targetPoint : CurvePoint.
Variable threshold : val.

Lemma scanNearest_app (l1 l2 : list ControlPoint) (i : nat)
    (state : Z * val) :
  scanNearest sqrt i (l1 ++ l2) targetPoint state
  = scanNearest sqrt (i + length l1) l2 targetPoint
      (scanNearest sqrt i l1 targetPoint state).
Proof.
  revert i state. induction l1 as [|p l1 IH]; intros i state; simpl.
  - by rewrite Nat.add_0_r.
  - rewrite IH. f_equal. lia.
Qed.

Lemma scanned_all (controlPoints : list ControlPoint) :
  scanned (fun p => distance sqrt p targetPoint) threshold controlPoints
    (scanNearest sqrt 0 controlPoints targetPoint ((-1)%Z, threshold)).
Proof.
  induction controlPoints as [|p seen IH] using rev_ind.
  - left. split; [done|]. intros q Hq. by apply elem_of_nil in Hq.
  - rewrite scanNearest_app. simpl (0 + _)%nat.
    destruct (scanNearest sqrt 0 seen targetPoint ((-1)%Z, threshold))
      as [idx m] eqn:Escan.
    cbn [scanNearest snd].
    set (d := distance sqrt p targetPoint).
    destruct (d <! m) eqn:Hlt.
    + (* the new point becomes the nearest *)
      right. exists (length seen), p. split; [done|].
      split; [by rewrite lookup_app_r, Nat.sub_diag by lia|].
      destruct (lt_is_number _ _ Hlt) as [Hd Hm].
      destruct IH as [[[= -> ->] Hnone]
                     |(i & p' & [= -> ->] & Hi & Hth & Hmin & Hfirst)].
      * split; [done|]. split.
        -- intros q Hq. apply elem_of_app in Hq as [Hq|Hq].
           ++ destruct (distance sqrt q targetPoint <! d) eqn:E; [|done].
              pose proof (lt_trans _ _ _ E Hlt) as Hc.
              by rewrite (Hnone q Hq) in Hc.
           ++ apply list_elem_of_singleton in Hq as ->. apply lt_irrefl.
        -- intros j q Hj Hq Hnum.
           rewrite lookup_app_l in Hq by done.
           apply (lt_le_trans _ threshold); [done|].
           apply not_lt_le; [done..|].
           apply Hnone. by eapply list_elem_of_lookup_2.
      * split; [by eapply lt_trans|]. split.
        -- intros q Hq. apply elem_of_app in Hq as [Hq|Hq].
           ++ destruct (distance sqrt q targetPoint <! d) eqn:E; [|done].
              pose proof (lt_trans _ _ _ E Hlt) as Hc.
              by rewrite (Hmin q Hq) in Hc.
           ++ apply list_elem_of_singleton in Hq as ->. apply lt_irrefl.
        -- intros j q Hj Hq Hnum.
           rewrite lookup_app_l in Hq by done.
           apply (lt_le_trans _ (distance sqrt p' targetPoint)); [done|].
           apply not_lt_le; [done..|].
           apply Hmin. by eapply list_elem_of_lookup_2.
    + (* the state is kept *)
      destruct IH as [[[= -> ->] Hnone]
                     |(i & p' & [= -> ->] & Hi & Hth & Hmin & Hfirst)].
      * left. split; [done|]. intros q Hq.
        apply elem_of_app in Hq as [Hq|Hq]; [by apply Hnone|].
        by apply list_elem_of_singleton in Hq as ->.
      * right. exists i, p'. split; [done|].
        pose proof (lookup_lt_Some _ _ _ Hi) as Hilt.
        split; [by rewrite lookup_app_l|]. split; [done|]. split.
        -- intros q Hq.
           apply elem_of_app in Hq as [Hq|Hq]; [by apply Hmin|].
           by apply list_elem_of_singleton in Hq as ->.
        -- intros j q Hj Hq Hnum.
           rewrite lookup_app_l in Hq by lia. by eapply Hfirst.
Qed.

End Nearest.

(** X15. [findNearestControlPoint] returns -1 exactly when no control point
    is at a distance strictly below the threshold; a point whose distance
    is [NaN] never counts. *)
Theorem findNearestControlPoint_none_iff (sqrt : val -> val)
    (controlPoints : list ControlPoint) (targetPoint : CurvePoint)
    (threshold : val) :
  findNearestControlPoint sqrt controlPoints targetPoint threshold = (-1)%Z
  <-> forall p, p ∈ controlPoints ->
        distance sqrt p targetPoint <! threshold = false.
Proof.
  unfold findNearestControlPoint.
  destruct (scanned_all sqrt targetPoint threshold controlPoints)
    as [[-> Hnone]|(i & p & -> & Hi & Hth & _)]; simpl.
  - by split.
  - split; [lia|]. intros Hnone.
    rewrite (Hnone p) in Hth; [done|]. by eapply list_elem_of_lookup_2.
Qed.

(** X16. The result of [findNearestControlPoint] is -1 or the index of a
    control point that is strictly within the threshold, with no point
    strictly closer, and with every earlier point whose distance is a
    number strictly farther: among equally near points the first wins. *)
Theorem findNearestControlPoint_found (sqrt : val -> val)
    (controlPoints : list ControlPoint) (targetPoint : CurvePoint)
    (threshold : val) :
  let d := fun p => distance sqrt p targetPoint in
  let result :=
    findNearestControlPoint sqrt controlPoints targetPoint threshold in
  result = (-1)%Z
  \/ exists i p,
       result = Z.of_nat i
       /\ controlPoints !! i = Some p
       /\ d p <! threshold = true
       /\ (forall q, q ∈ controlPoints -> d q <! d p = false)
       /\ (forall j q, (j < i)%nat -> controlPoints !! j = Some q ->
             isNaN (d q) = false -> d p <! d q = true).
Proof.
  intros d result. subst d result. unfold findNearestControlPoint.
  destruct (scanned_all sqrt targetPoint threshold controlPoints)
    as [[-> Hnone]|(i & p & -> & Hrest)]; simpl.
  - by left.
  - right. by exists i, p.
Qed.

(** * Bounding box *)

Section BoundingBoxFacts.

Lemma controlInBox_weaken (a b c d a' b' c' d' : Qc) (p : ControlPoint) :
  a' <= a -> b <= b' -> c' <= c -> d <= d' ->
  controlInBox a b c d p -> controlInBox a' b' c' d' p.
Proof.
  intros Ha Hb Hc Hd. unfold controlInBox, inBox. simpl.
  destruct (cp_x p) as [x| | | |], (cp_y p) as [y| | | |];
    try (intros (? & ? & ? & ?); discriminate).
  rewrite !le_Fin. intros (H1 & H2 & H3 & H4).
  apply bool_decide_eq_true_1 in H1, H2, H3, H4.
  repeat split; apply bool_decide_eq_true_2; qc_order.
Qed.

Lemma extendBox_finite (a b c d x y : Qc) (p : ControlPoint) :
  cp_x p = Fin x -> cp_y p = Fin y ->
  exists a' b' c' d',
    extendBox (Fin a, Fin b, Fin c, Fin d) p = (Fin a', Fin b', Fin c', Fin d')
    /\ a' <= a /\ a' <= x /\ (a' = a \/ a' = x)
    /\ b <= b' /\ x <= b' /\ (b' = b \/ b' = x)
    /\ c' <= c /\ c' <= y /\ (c' = c \/ c' = y)
    /\ d <= d' /\ y <= d' /\ (d' = d \/ d' = y).
Proof.
  intros Hx Hy. unfold extendBox. rewrite Hx, Hy.
  rewrite !min_Fin, !max_Fin.
  eexists _, _, _, _. split; [done|].
  repeat case_bool_decide;
    repeat split; auto using Qcle_refl;
    try (apply Qclt_le_weak, Qcnot_le_lt; done); done.
Qed.

Lemma fold_extendBox_finite (points : list ControlPoint) (a b c d : Qc) :
  Forall (fun p => finite (cp_x p) /\ finite (cp_y p)) points ->
  exists a' b' c' d',
    fold_left extendBox points (Fin a, Fin b, Fin c, Fin d)
    = (Fin a', Fin b', Fin c', Fin d')
    /\ (a' <= a /\ b <= b' /\ c' <= c /\ d <= d')
    /\ Forall (controlInBox a' b' c' d') points
    /\ (a' = a \/ exists p, p ∈ points /\ cp_x p = Fin a')
    /\ (b' = b \/ exists p, p ∈ points /\ cp_x p = Fin b')
    /\ (c' = c \/ exists p, p ∈ points /\ cp_y p = Fin c')
    /\ (d' = d \/ exists p, p ∈ points /\ cp_y p = Fin d').
Proof.
  intros Hall. revert a b c d.
  induction Hall as [|p rest [[x Hx] [y Hy]] _ IH]; intros a b c d.
  - exists a, b, c, d. simpl.
    repeat split; auto using Qcle_refl.
  - destruct (extendBox_finite a b c d x y p Hx Hy)
      as (a1 & b1 & c1 & d1 & Hstep & Ha1 & Hax & Haeq & Hb1 & Hbx & Hbeq
          & Hc1 & Hcy & Hceq & Hd1 & Hdy & Hdeq).
    destruct (IH a1 b1 c1 d1)
      as (a' & b' & c' & d' & Hfold & (Ha & Hb & Hc & Hd) & Hin
          & Hmina & Hmaxb & Hminc & Hmaxd).
    exists a', b', c', d'. cbn [fold_left]. rewrite Hstep, Hfold.
    split; [done|]. split; [repeat split; qc_order|].
    split.
    { constructor; [|done].
      apply (controlInBox_weaken x x y y); [qc_order..|].
      unfold controlInBox, inBox. simpl. rewrite Hx, Hy, !le_Fin.
      repeat split; apply bool_decide_eq_true_2, Qcle_refl. }
    assert (Hhere : forall (P : ControlPoint -> Prop),
              (exists q, q ∈ rest /\ P q) ->
              exists q, q ∈ p :: rest /\ P q).
    { intros P (q & Hq & HP). exists q.
      split; [by apply list_elem_of_further|done]. }
    repeat split.
    + destruct Hmina as [->|H];
        [|right; by apply (Hhere (fun q => cp_x q = Fin a'))].
      destruct Haeq as [->| ->]; [by left|right].
      exists p. split; [apply list_elem_of_here|done].
    + destruct Hmaxb as [->|H];
        [|right; by apply (Hhere (fun q => cp_x q = Fin b'))].
      destruct Hbeq as [->| ->]; [by left|right].
      exists p. split; [apply list_elem_of_here|done].
    + destruct Hminc as [->|H];
        [|right; by apply (Hhere (fun q => cp_y q = Fin c'))].
      destruct Hceq as [->| ->]; [by left|right].
      exists p. split; [apply list_elem_of_here|done].
    + destruct Hmaxd as [->|H];
        [|right; by apply (Hhere (fun q => cp_y q = Fin d'))].
      destruct Hdeq as [->| ->]; [by left|right].
      exists p. split; [apply list_elem_of_here|done].
Qed.

Lemma getBoundingBox_finite (points : list ControlPoint) :
  points <> [] ->
  Forall (fun p => finite (cp_x p) /\ finite (cp_y p)) points ->
  exists a b c d : Qc,
    getBoundingBox points
    = Some {| minX := Fin a; minY := Fin c; maxX := Fin b; maxY := Fin d;
              width := Fin (b - a); height := Fin (d - c) |}
    /\ Forall (controlInBox a b c d) points
    /\ (exists p, p ∈ points /\ cp_x p = Fin a)
    /\ (exists p, p ∈ points /\ cp_x p = Fin b)
    /\ (exists p, p ∈ points /\ cp_y p = Fin c)
    /\ (exists p, p ∈ points /\ cp_y p = Fin d).
Proof.
  intros Hne Hall. destruct points as [|first rest]; [done|].
  pose proof (Forall_inv Hall) as [[x Hx] [y Hy]].
  destruct (fold_extendBox_finite (first :: rest) x x y y Hall)
    as (a & b & c & d & Hfold & _ & Hin & Hmina & Hmaxb & Hminc & Hmaxd).
  exists a, b, c, d. unfold getBoundingBox. rewrite Hx, Hy, Hfold.
  split; [done|]. split; [done|].
  assert (Hfirst : forall (P : ControlPoint -> Prop),
            P first -> exists q, q ∈ first :: rest /\ P q).
  { intros P HP. exists first. split; [apply list_elem_of_here|done]. }
  repeat split.
  - destruct Hmina as [->|H]; [|done].
    by apply (Hfirst (fun q => cp_x q = Fin x)).
  - destruct Hmaxb as [->|H]; [|done].
    by apply (Hfirst (fun q => cp_x q = Fin x)).
  - destruct Hminc as [->|H]; [|done].
    by apply (Hfirst (fun q => cp_y q = Fin y)).
  - destruct Hmaxd as [->|H]; [|done].
    by apply (Hfirst (fun q => cp_y q = Fin y)).
Qed.

End BoundingBoxFacts.

(** X17. For a non-empty sequence of points with finite coordinates,
    [getBoundingBox] returns a box with finite bounds that contains every
    point, each bound is the coordinate of one of the points, and the width
    and height are the differences of the bounds and are not negative. *)
Theorem getBoundingBox_encloses (points : list ControlPoint) :
  points <> [] ->
  Forall (fun p => finite (cp_x p) /\ finite (cp_y p)) points ->
  exists a b c d : Qc,
    getBoundingBox points
    = Some {| minX := Fin a; minY := Fin c; maxX := Fin b; maxY := Fin d;
              width := Fin (b - a); height := Fin (d - c) |}
    /\ Forall (controlInBox a b c d) points
    /\ (exists p, p ∈ points /\ cp_x p = Fin a)
    /\ (exists p, p ∈ points /\ cp_x p = Fin b)
    /\ (exists p, p ∈ points /\ cp_y p = Fin c)
    /\ (exists p, p ∈ points /\ cp_y p = Fin d)
    /\ 0 <= b - a /\ 0 <= d - c.
Proof.
  intros Hne Hall.
  destruct (getBoundingBox_finite points Hne Hall)
    as (a & b & c & d & Hbox & Hin & Ha & Hb & Hc & Hd).
  exists a, b, c, d. do 6 (split; [done|]).
  destruct points as [|first rest]; [done|].
  apply Forall_inv in Hin. destruct Hin as (H1 & H2 & H3 & H4). simpl in *.
  destruct (cp_x first) as [x| | | |], (cp_y first) as [y| | | |];
    try discriminate.
  rewrite !le_Fin in *.
  apply bool_decide_eq_true_1 in H1, H2, H3, H4.
  split; qc_order.
Qed.

Lemma getBoundingBox_encloses_witness :
  exists a b c d : Qc,
    getBoundingBox
      [mkControlPoint (ofZ 3) (ofZ 7) one;
       mkControlPoint (ofZ (-2)) (ofZ 9) one;
       mkControlPoint (ofZ 5) (ofZ 4) NaN]
    = Some {| minX := Fin a; minY := Fin c; maxX := Fin b; maxY := Fin d;
              width := Fin (b - a); height := Fin (d - c) |}
    /\ 0 <= b - a /\ 0 <= d - c.
Proof.
  destruct (getBoundingBox_encloses
              [mkControlPoint (ofZ 3) (ofZ 7) one;
               mkControlPoint (ofZ (-2)) (ofZ 9) one;
               mkControlPoint (ofZ 5) (ofZ 4) NaN])
    as (a & b & c & d & Hbox & _ & _ & _ & _ & _ & Hw & Hh).
  - discriminate.
  - repeat constructor; simpl; unfold finite, ofZ; eauto.
  - exists a, b, c, d. split; [exact Hbox|]. split; [exact Hw|exact Hh].
Defined.

Lemma fold_extendBox_NaN_x (points : list ControlPoint)
    (state : val * val * val * val) :
  (state.1.1.1 = NaN /\ state.1.1.2 = NaN)
  \/ (exists p, p ∈ points /\ isNaN (cp_x p) = true) ->
  (fold_left extendBox points state).1.1.1 = NaN
  /\ (fold_left extendBox points state).1.1.2 = NaN.
Proof.
  revert state. induction points as [|p rest IH]; intros state H.
  - destruct H as [H|(q & Hq & _)]; [done|]. by apply elem_of_nil in Hq.
  - cbn [fold_left]. apply IH.
    destruct state as [[[mn mx] mny] mxy]. simpl in *.
    destruct H as [[-> ->]|(q & Hq & Hnan)].
    + left. done.
    + apply elem_of_cons in Hq as [->|Hq]; [|right; by exists q].
      left. unfold Num.min, Num.max. rewrite Hnan, !orb_true_r. done.
Qed.

(** X18. One point whose [x] is [NaN] (or missing) spoils the horizontal
    extent of the box: [getBoundingBox] then returns a box whose [minX],
    [maxX] and [width] are all [NaN], whatever the other points are. *)
Theorem getBoundingBox_NaN (points : list ControlPoint) (p : ControlPoint) :
  p ∈ points -> isNaN (cp_x p) = true ->
  exists box,
    getBoundingBox points = Some box
    /\ minX box = NaN /\ maxX box = NaN /\ width box = NaN.
Proof.
  intros Hp Hnan. destruct points as [|first rest].
  { by apply elem_of_nil in Hp. }
  unfold getBoundingBox.
  destruct (fold_extendBox_NaN_x (first :: rest)
              (cp_x first, cp_x first, cp_y first, cp_y first))
    as [Hmin Hmax].
  { right. by exists p. }
  destruct (fold_left extendBox (first :: rest) _) as [[[mn mx] mny] mxy].
  simpl in Hmin, Hmax. subst mn mx.
  eexists. split; [done|]. done.
Qed.

Lemma getBoundingBox_NaN_witness :
  exists box,
    getBoundingBox
      [mkControlPoint (ofZ 3) (ofZ 7) one; mkControlPoint NaN (ofZ 9) one]
    = Some box
    /\ minX box = NaN /\ maxX box = NaN /\ width box = NaN.
Proof.
  apply (getBoundingBox_NaN _ (mkControlPoint NaN (ofZ 9) one)).
  - apply list_elem_of_further, list_elem_of_here.
  - reflexivity.
Defined.



(** * Validity *)

Lemma generateBezierCurve_nonempty_iff (controlPoints : list ControlPoint)
    (steps : nat) :
  generateBezierCurve controlPoints steps <> []
  <-> (2 <= length controlPoints)%nat.
Proof.
  split.
  - intros Hne. destruct (Nat.lt_ge_cases (length controlPoints) 2) as [H|H];
      [|done].
    exfalso. apply Hne. unfold generateBezierCurve.
    by destruct (Nat.ltb_spec (length controlPoints) 2); [|lia].
  - intros Hlen Hnil. apply (f_equal length) in Hnil.
    rewrite generateBezierCurve_omap in Hnil by done.
    rewrite length_omap_all_Some, length_seq in Hnil; [simpl in Hnil; lia|].
    intros i _. apply deCasteljauBezier_is_Some.
    intros ->. simpl in Hlen. lia.
Qed.

Lemma generateBSplineCurve_nonempty_iff (controlPoints : list ControlPoint)
    (degree steps : nat) (knots : option (list val)) :
  generateBSplineCurve controlPoints degree steps knots <> []
  <-> (degree + 1 <= length controlPoints)%nat.
Proof.
  split.
  - intros Hne.
    destruct (Nat.lt_ge_cases (length controlPoints) (degree + 1)) as [H|H];
      [|done].
    exfalso. apply Hne. unfold generateBSplineCurve.
    by destruct (Nat.ltb_spec (length controlPoints) (degree + 1)); [|lia].
  - intros Hlen Hnil. apply (f_equal length) in Hnil.
    assert (Heq : generateBSplineCurve controlPoints degree steps knots
                  = generateBSplineCurve controlPoints degree steps
                      (Some (knotsOrDefault knots (length controlPoints)
                               degree))).
    { unfold generateBSplineCurve. by destruct knots. }
    rewrite Heq, generateBSplineCurve_omap in Hnil by done.
    rewrite length_omap_all_Some, length_seq in Hnil; [simpl in Hnil; lia|].
    intros i _. by apply bSplinePoint_is_Some.
Qed.

Module ValidityFacts.

Import Stdlib.Strings.String.

(** X20. [validateCurve] agrees with the samplers: for ["bezier"] it
    answers true exactly when [generateBezierCurve] returns a non-empty
    curve, for ["spline"] exactly when [generateBSplineCurve] does (for the
    same degree); for every other curve type, and for a missing array, it
    answers false. *)
Theorem validateCurve_agrees_with_samplers :
  (forall controlPoints degree steps,
      validateCurve (Some controlPoints) "bezier"%string degree = true
      <-> generateBezierCurve controlPoints steps <> [])
  /\ (forall controlPoints degree steps knots,
        validateCurve (Some controlPoints) "spline"%string degree = true
        <-> generateBSplineCurve controlPoints degree steps knots <> [])
  /\ (forall controlPoints curveType degree,
        curveType <> "bezier"%string -> curveType <> "spline"%string ->
        validateCurve controlPoints curveType degree = false)
  /\ (forall curveType degree, validateCurve None curveType degree = false).
Proof.
  split; [|split; [|split]].
  - intros controlPoints degree steps.
    rewrite generateBezierCurve_nonempty_iff. unfold validateCurve.
    destruct (Nat.eqb_spec (List.length controlPoints) 0) as [H0|H0];
      [split; [done|lia]|].
    destruct (Nat.leb_spec 2 (List.length controlPoints)); simpl;
      split; (done || lia).
  - intros controlPoints degree steps knots.
    rewrite generateBSplineCurve_nonempty_iff. unfold validateCurve.
    destruct (Nat.eqb_spec (List.length controlPoints) 0) as [H0|H0];
      [split; [done|lia]|].
    destruct (Nat.leb_spec (degree + 1) (List.length controlPoints)); simpl;
      split; (done || lia).
  - intros [controlPoints|] curveType degree Hb Hs; [|done].
    unfold validateCurve.
    destruct (List.length controlPoints =? 0)%nat; [done|].
    apply String.eqb_neq in Hb, Hs. by rewrite Hb, Hs.
  - done.
Qed.

Lemma validateCurve_agrees_with_samplers_witness :
  validateCurve
    (Some [mkControlPoint zero zero one; mkControlPoint one one one])
    "bezier"%string 3 = true
  /\ validateCurve
       (Some [mkControlPoint zero zero one; mkControlPoint one one one])
       "spline"%string 3 = false
  /\ validateCurve
       (Some [mkControlPoint zero zero one; mkControlPoint one one one])
       "circle"%string 3 = false.
Proof.
  destruct validateCurve_agrees_with_samplers as (Hb & _ & Ho & _).
  split; [|split].
  - apply (Hb _ 3%nat 1%nat). vm_compute. discriminate.
  - reflexivity.
  - apply Ho; discriminate.
Defined.

End ValidityFacts.

(** * The point store *)

Section StoreFacts.

Context {Id : Type} (generateId : nat -> Id).

Lemma minWeight_pos : 0 < minWeight.
Proof. done. Qed.

Lemma minWeight_le_1 : minWeight <= 1.
Proof. unfold minWeight, Qcle. simpl. unfold Qle. simpl. lia. Qed.

Lemma one_le_maxWeight : 1 <= maxWeight.
Proof. unfold maxWeight, Qcle. simpl. unfold Qle. simpl. lia. Qed.

Lemma minWeight_le_maxWeight : minWeight <= maxWeight.
Proof. eapply Qcle_trans; [apply minWeight_le_1|apply one_le_maxWeight]. Qed.

(** The clamp brings every number into the range, and lets [NaN] and a
    missing value through as [NaN]. *)
Lemma clampWeight_number (w : val) :
  isNaN w = false ->
  exists q, clampWeight w = Fin q /\ minWeight <= q /\ q <= maxWeight.
Proof.
  intros Hw. unfold clampWeight.
  destruct w as [q| | | |]; try discriminate.
  - rewrite min_Fin, max_Fin. eexists. split; [done|].
    pose proof minWeight_le_maxWeight.
    repeat case_bool_decide; split; try done; try apply Qcle_refl;
      try (apply Qclt_le_weak, Qcnot_le_lt; done).
  - exists maxWeight.
    split; [|split; [apply minWeight_le_maxWeight|apply Qcle_refl]].
    unfold Num.min; simpl. rewrite max_Fin.
    by rewrite bool_decide_eq_true_2 by apply minWeight_le_maxWeight.
  - exists minWeight. split; [done|].
    split; [apply Qcle_refl|apply minWeight_le_maxWeight].
Qed.

Lemma clampWeight_NaN (w : val) : isNaN w = true -> clampWeight w = NaN.
Proof. by destruct w. Qed.

Lemma clampWeight_in_range (w : Qc) :
  minWeight <= w -> w <= maxWeight -> clampWeight (Fin w) = Fin w.
Proof.
  intros Hlo Hhi. unfold clampWeight. rewrite min_Fin, max_Fin.
  destruct (decide (maxWeight <= w)) as [H1|H1].
  - assert (w = maxWeight) as -> by (by apply Qcle_antisym).
    rewrite (bool_decide_eq_true_2 (maxWeight <= maxWeight)) by done.
    by rewrite bool_decide_eq_true_2 by apply minWeight_le_maxWeight.
  - rewrite (bool_decide_eq_false_2 (maxWeight <= w)) by done.
    by rewrite bool_decide_eq_true_2.
Qed.


Lemma round_integral (a : val) : isNaN a = false -> integral (round a).
Proof.
  destruct a as [q| | | |]; try discriminate; intros _; unfold integral; simpl;
    eauto.
Qed.

Lemma Qfloor_half (z : Z) : Qfloor (Qc_of_Z z + Q2Qc (1 # 2)) = z.
Proof.
  assert (Hx : (Qc_of_Z z + Q2Qc (1 # 2) : Q) == inject_Z z + (1 # 2)).
  { simpl. by rewrite !Qred_correct. }
  rewrite (Qfloor_comp _ _ Hx).
  assert (H1 : (z <= Qfloor (inject_Z z + (1 # 2)))%Z).
  { rewrite <- (Qfloor_Z z) at 1. apply Qfloor_resp_le. lra. }
  assert (H2 : (Qfloor (inject_Z z + (1 # 2)) < z + 1)%Z).
  { rewrite Zlt_Qlt. eapply Qle_lt_trans; [apply Qfloor_le|].
    rewrite inject_Z_plus. apply Qplus_lt_r. reflexivity. }
  lia.
Qed.

Lemma round_idempotent (a : val) : round (round a) = round a.
Proof.
  destruct a as [q| | | |]; try done. cbn [round]. by rewrite Qfloor_half.
Qed.

Lemma round_of_integral (a : val) : integral a -> round a = a.
Proof.
  intros [[z ->]|[->| ->]]; [|done..]. cbn [round]. by rewrite Qfloor_half.
Qed.

Lemma integral_number (a : val) : integral a -> isNaN a = false.
Proof. by intros [[z ->]|[->| ->]]. Qed.

Lemma or_one_in_range (w : Qc) : minWeight <= w -> Num.or (Fin w) one = Fin w.
Proof.
  intros H. unfold Num.or. cbn [truthy].
  rewrite bool_decide_eq_false_2; [done|]. intros ->.
  by apply Qcle_not_lt in H.
Qed.









Lemma normalised_weightInRange (p : ControlPoint) :
  normalised p -> weightInRange p.
Proof. by intros [H _]. Qed.

Lemma one_weightInRange (x y : val) :
  weightInRange {| cp_x := x; cp_y := y; cp_weight := one |}.
Proof.
  exists 1. split; [done|].
  split; [apply minWeight_le_1|apply one_le_maxWeight].
Qed.

Lemma Forall_addControlPoint (P : ControlPoint -> Prop) (x y : val)
    (points : list (@Point Id)) (calls : nat) :
  P {| cp_x := round x; cp_y := round y; cp_weight := one |} ->
  Forall (fun p => P (point p)) points ->
  Forall (fun p => P (point p))
    (addControlPoint generateId x y points calls).1.2.
Proof.
  intros Hnew Hall. cbn [addControlPoint fst snd]. unfold push.
  apply Forall_app. split; [done|]. by constructor.
Qed.

Lemma Forall_removeControlPoint (P : @Point Id -> Prop) (index : Z)
    (points : list (@Point Id)) :
  Forall P points -> Forall P (removeControlPoint index points).2.
Proof.
  intros Hall. unfold removeControlPoint.
  destruct (inRange index points); [|done]. by apply Forall_delete.
Qed.

Lemma Forall_updateControlPoint (P : ControlPoint -> Prop) (index : Z)
    (x y : option val) (relative : bool) (points : list (@Point Id)) :
  (forall p : @Point Id,
      P (point p) -> P (point (movePoint x y relative p))) ->
  Forall (fun p => P (point p)) points ->
  Forall (fun p => P (point p))
    (updateControlPoint index x y relative points).2.
Proof.
  intros Hmove Hall. unfold updateControlPoint.
  destruct (inRange index points); [|done].
  apply Forall_alter; [done|]. intros p _. apply Hmove.
Qed.

Lemma Forall_updatePointWeight (P : ControlPoint -> Prop) (index : Z)
    (weight : val) (points : list (@Point Id)) :
  (forall p : @Point Id, P (point p) -> P (point (setWeight weight p))) ->
  Forall (fun p => P (point p)) points ->
  Forall (fun p => P (point p)) (updatePointWeight index weight points).2.
Proof.
  intros Hset Hall. unfold updatePointWeight.
  destruct (inRange index points); [|done].
  apply Forall_alter; [done|]. intros p _. apply Hset.
Qed.

Lemma movePoint_weight (x y : option val) (relative : bool)
    (p : @Point Id) :
  cp_weight (point (movePoint x y relative p)) = cp_weight (point p).
Proof. by destruct relative. Qed.

Lemma movePoint_absolute_normalised (x y : option val) (p : @Point Id) :
  nullOrNumber x -> nullOrNumber y ->
  normalised (point p) -> normalised (point (movePoint x y false p)).
Proof.
  intros Hx Hy (Hw & Hpx & Hpy). split; [|split].
  - done.
  - destruct x as [x|]; [|done]. apply round_integral. by apply Hx.
  - destruct y as [y|]; [|done]. apply round_integral. by apply Hy.
Qed.

(** X23. The operations of the store keep it normalised: adding a point
    at coordinates that are numbers, removing a point, moving a point to
    absolute coordinates that are [null] or numbers, and setting a weight
    that is a number; a relative move keeps every weight in the range. *)
Theorem store_stays_normalised (points : list (@Point Id)) :
  normalisedStore points ->
  (forall x y calls, isNaN x = false -> isNaN y = false ->
     normalisedStore (addControlPoint generateId x y points calls).1.2)
  /\ (forall index, normalisedStore (removeControlPoint index points).2)
  /\ (forall index x y, nullOrNumber x -> nullOrNumber y ->
        normalisedStore (updateControlPoint index x y false points).2)
  /\ (forall index x y,
        weightsInRange (updateControlPoint index x y true points).2)
  /\ (forall index weight, isNaN weight = false ->
        normalisedStore (updatePointWeight index weight points).2).
Proof.
  intros Hall. repeat split.
  - intros x y calls Hx Hy.
    apply (Forall_addControlPoint normalised); [|done].
    split; [apply one_weightInRange|]. split; by apply round_integral.
  - intros index. by apply Forall_removeControlPoint.
  - intros index x y Hx Hy.
    apply (Forall_updateControlPoint normalised); [|done].
    intros p. by apply movePoint_absolute_normalised.
  - intros index x y.
    apply (Forall_updateControlPoint weightInRange).
    + intros p (w & Hw & Hlo & Hhi). exists w.
      by rewrite movePoint_weight.
    + eapply List.Forall_impl; [|exact Hall].
      intros p. apply normalised_weightInRange.
  - intros index weight Hw.
    apply (Forall_updatePointWeight normalised); [|done].
    intros p (_ & Hx & Hy). split; [|done].
    by apply clampWeight_number.
Qed.

Lemma delete_last_pushed {A : Type} (l : list A) (a : A) :
  delete (length l) (push l a) = l.
Proof.
  unfold push. induction l as [|b l IH]; [done|]. simpl. by rewrite IH.
Qed.

(** X24. Removing the point at the index that [addControlPoint] returned
    succeeds and gives back the points as they were before the addition. *)
Theorem addControlPoint_removeControlPoint (x y : val)
    (points : list (@Point Id)) (calls : nat) :
  removeControlPoint (addControlPoint generateId x y points calls).1.1
    (addControlPoint generateId x y points calls).1.2
  = (true, points).
Proof.
  cbn [addControlPoint fst snd].
  set (new := {| point := _; id := _ |}).
  assert (Hlen : length (push points new) = (length points + 1)%nat).
  { unfold push. by rewrite length_app. }
  unfold removeControlPoint, inRange. rewrite Hlen.
  replace (Z.of_nat (length points + 1) - 1)%Z
    with (Z.of_nat (length points)) by lia.
  rewrite Nat2Z.id.
  destruct (Z.leb_spec 0 (Z.of_nat (length points))); [|lia].
  destruct (Z.ltb_spec (Z.of_nat (length points))
              (Z.of_nat (length points + 1))); [|lia].
  cbn [andb]. by rewrite delete_last_pushed.
Qed.

Lemma filter_wellFormed_exported (stored : list (@Point Id)) :
  Forall (fun p => normalised (point p)) stored ->
  List.filter wellFormed (exportedPoints stored) = exportedPoints stored.
Proof.
  induction 1 as [|p rest (_ & Hx & Hy) _ IH]; [done|].
  unfold exportedPoints in *. cbn [map List.filter].
  unfold wellFormed at 1. cbn [raw].
  by rewrite (integral_number _ Hx), (integral_number _ Hy), IH.
Qed.

Lemma validateEach_exported (stored : list (@Point Id)) :
  Forall (fun p => normalised (point p)) stored ->
  forall calls,
    validateEach generateId (exportedPoints stored) calls
    = (zip_with mkPoint (map point stored)
         (map generateId (seq calls (length stored))),
       (calls + length stored)%nat).
Proof.
  induction 1 as [|p rest ((w & Hw & Hlo & Hhi) & Hx & Hy) _ IH];
    intros calls.
  - cbn. by rewrite Nat.add_0_r.
  - unfold exportedPoints in *.
    cbn [map validateEach rawId raw length seq zip_with]. rewrite IH.
    rewrite (round_of_integral _ Hx), (round_of_integral _ Hy), Hw.
    rewrite (or_one_in_range _ Hlo), (clampWeight_in_range _ Hlo Hhi).
    rewrite <- Hw. f_equal; [|lia]. f_equal. by destruct (point p).
Qed.

(** X25. The export and import round trip.  The control points that
    [exportCurveData] puts in its object, handed to [validatePoints] as
    [importCurveData] does, give back the coordinates and weights of a
    normalised store unchanged and in order, each point under a newly
    generated id. *)
Theorem export_import_round_trip (stored : list (@Point Id))
    (calls : nat) :
  normalisedStore stored ->
  validatePoints generateId (exportedPoints stored) calls
  = (zip_with mkPoint (map point stored)
       (map generateId (seq calls (length stored))),
     (calls + length stored)%nat)
  /\ map point (validatePoints generateId (exportedPoints stored) calls).1
     = map point stored.
Proof.
  intros H. unfold validatePoints.
  rewrite (filter_wellFormed_exported _ H), (validateEach_exported _ H).
  split; [done|]. cbn [fst]. clear H. revert calls.
  induction stored as [|p rest IH]; intros calls; [done|].
  cbn [map length seq zip_with point]. by rewrite IH.
Qed.

End StoreFacts.

Lemma export_import_round_trip_witness :
  let stored :=
    [mkPoint {| cp_x := ofZ 3; cp_y := ofZ 7; cp_weight := one |} 10%nat;
     mkPoint {| cp_x := PInf; cp_y := ofZ (-2); cp_weight := ofZ 3 |} 11%nat]
  in
  validatePoints (fun n => n) (exportedPoints stored) 5
  = (zip_with mkPoint (map point stored) [5; 6]%nat, 7%nat)
  /\ map point (validatePoints (fun n => n) (exportedPoints stored) 5).1
     = map point stored.
Proof.
  intros stored.
  apply (export_import_round_trip (fun n => n) stored 5).
  apply List.Forall_cons; [|apply List.Forall_cons; [|apply List.Forall_nil]].
  - split; [|split].
    + exists 1. split; [done|]. split; compute_done.
    + left. by exists 3%Z.
    + left. by exists 7%Z.
  - split; [|split].
    + exists (Qc_of_Z 3). split; [done|]. split; compute_done.
    + right. by left.
    + left. by exists (-2)%Z.
Defined.

Lemma store_stays_normalised_witness :
  let points :=
    [mkPoint {| cp_x := ofZ 3; cp_y := ofZ 7; cp_weight := one |} 0%nat;
     mkPoint {| cp_x := PInf; cp_y := ofZ (-2); cp_weight := ofZ 3 |} 1%nat]
  in
  normalisedStore
    (updatePointWeight 1 (ofZ 10) points).2.
Proof.
  intros points.
  refine (proj2 (proj2 (proj2 (proj2
    (store_stays_normalised (fun n => n) points _)))) 1%Z (ofZ 10) _).
  - apply List.Forall_cons; [|apply List.Forall_cons; [|apply List.Forall_nil]].
    + split; [|split].
      * exists 1. split; [done|]. split; compute_done.
      * left. by exists 3%Z.
      * left. by exists 7%Z.
    + split; [|split].
      * exists (Qc_of_Z 3). split; [done|]. split; compute_done.
      * right. by left.
      * left. by exists (-2)%Z.
  - reflexivity.
Defined.

(** ** A weight that is not a number *)

Section Poison.

Lemma isNaN_mul_l (a b : val) : isNaN a = true -> a *! b = NaN.
Proof. by destruct a, b. Qed.

Lemma isNaN_mul_r (a b : val) : isNaN b = true -> a *! b = NaN.
Proof. by destruct a, b. Qed.

Lemma isNaN_add_l (a b : val) : isNaN a = true -> a +! b = NaN.
Proof. by destruct a, b. Qed.

Lemma isNaN_add_r (a b : val) : isNaN b = true -> a +! b = NaN.
Proof. by destruct a, b. Qed.

Lemma isNaN_div_r (a b : val) : isNaN b = true -> a /! b = NaN.
Proof. by destruct a, b. Qed.

Lemma isNaN_strictNe_zero (a : val) : isNaN a = true -> a !== zero = true.
Proof. by destruct a. Qed.

Lemma homogeneous_poisoned (p : ControlPoint) :
  nanWeight p -> poisoned (homogeneous p).
Proof.
  intros H. unfold poisoned, homogeneous. cbn [cp_x cp_y cp_weight].
  by rewrite !(isNaN_mul_r _ _ H).
Qed.

Lemma interpolate_poisoned_l (t : val) (p1 p2 : ControlPoint) :
  poisoned p1 -> poisoned (interpolate t p1 p2).
Proof.
  intros (Hx & Hy & Hw). unfold poisoned, interpolate.
  cbn [cp_x cp_y cp_weight].
  rewrite (isNaN_mul_l _ (one -! t) Hx), (isNaN_mul_l _ (one -! t) Hy),
    (isNaN_mul_l _ (one -! t) Hw).
  by rewrite !isNaN_add_l.
Qed.

Lemma interpolate_poisoned_r (t : val) (p1 p2 : ControlPoint) :
  poisoned p2 -> poisoned (interpolate t p1 p2).
Proof.
  intros (Hx & Hy & Hw). unfold poisoned, interpolate.
  cbn [cp_x cp_y cp_weight].
  rewrite (isNaN_mul_l _ t Hx), (isNaN_mul_l _ t Hy), (isNaN_mul_l _ t Hw).
  by rewrite !isNaN_add_r.
Qed.

(** One round of the reduction spreads a poisoned point to a neighbour. *)
Lemma reduceOnce_poisoned (t : val) (points : list ControlPoint) :
  (2 <= length points)%nat ->
  Exists poisoned points -> Exists poisoned (reduceOnce t points).
Proof.
  induction points as [|p1 [|p2 rest] IH]; simpl; [lia..|].
  intros _ H. inversion_clear H as [? ? H1|? ? H2].
  - left. by apply interpolate_poisoned_l.
  - destruct rest as [|p3 rest].
    + inversion_clear H2 as [? ? Hp|? ? Hp]; [|by inversion Hp].
      left. by apply interpolate_poisoned_r.
    + right. apply IH; [simpl; lia|done].
Qed.

Lemma reduceLoop_poisoned (fuel : nat) (t : val)
    (points : list ControlPoint) :
  Exists poisoned points -> Exists poisoned (reduceLoop fuel t points).
Proof.
  revert points. induction fuel as [|fuel IH]; intros points H; [done|].
  simpl. destruct (Nat.ltb_spec 1 (length points)) as [Hlt|Hge]; [|done].
  apply IH. apply reduceOnce_poisoned; [lia|done].
Qed.

Lemma finalPoint_poisoned (controlPoints : list ControlPoint) (t : val) :
  Exists nanWeight controlPoints ->
  exists final, finalPoint controlPoints t = Some final /\ poisoned final.
Proof.
  intros H.
  assert (Hlen : (1 <= length controlPoints)%nat).
  { destruct controlPoints; [by inversion H|simpl; lia]. }
  destruct (finalPoint_is_Some controlPoints t Hlen) as [final Hfinal].
  exists final. unfold finalPoint. rewrite length_map, Hfinal.
  split; [done|].
  assert (Hex : Exists poisoned (map homogeneous controlPoints)).
  { apply Exists_exists in H as (p & Hp & Hnan). apply Exists_exists.
    exists (homogeneous p). split; [by apply List.in_map|].
    by apply homogeneous_poisoned. }
  apply (reduceLoop_poisoned (length controlPoints) t) in Hex.
  rewrite Hfinal in Hex.
  inversion_clear Hex as [? ? Hp|? ? Hp]; [done|by inversion Hp].
Qed.

Lemma deCasteljauBezier_poisoned (controlPoints : list ControlPoint)
    (t : val) :
  (2 <= length controlPoints)%nat -> Exists nanWeight controlPoints ->
  deCasteljauBezier controlPoints t = Some nanCurvePoint.
Proof.
  intros Hlen H. rewrite deCasteljauBezier_many by done.
  destruct (finalPoint_poisoned controlPoints t H)
    as (final & -> & Hx & Hy & Hw).
  rewrite (isNaN_strictNe_zero _ Hw).
  by rewrite !(isNaN_div_r _ _ Hw).
Qed.

End Poison.

(** X26. A control point whose weight is [NaN] or missing makes every
    sample of [generateBezierCurve] the point [{x: NaN, y: NaN}]. *)
Theorem generateBezierCurve_NaN_weight (controlPoints : list ControlPoint)
    (steps : nat) :
  (2 <= length controlPoints)%nat -> Exists nanWeight controlPoints ->
  generateBezierCurve controlPoints steps
  = replicate (steps + 1) nanCurvePoint.
Proof.
  intros Hlen H. rewrite generateBezierCurve_omap by done.
  rewrite (omap_all_Some _ (fun _ => nanCurvePoint)).
  - assert (Hrep : forall k from,
              (fun _ : nat => nanCurvePoint) <$> seq from k
              = replicate k nanCurvePoint).
    { induction k as [|k IH]; intros from; [done|]. simpl. by rewrite IH. }
    apply Hrep.
  - intros i _. by apply deCasteljauBezier_poisoned.
Qed.

Lemma generateBezierCurve_NaN_weight_witness :
  generateBezierCurve
    [mkControlPoint zero zero one; mkControlPoint (ofZ 4) zero NaN;
     mkControlPoint (ofZ 8) one one] 2
  = replicate 3 nanCurvePoint.
Proof.
  apply (generateBezierCurve_NaN_weight
           [mkControlPoint zero zero one; mkControlPoint (ofZ 4) zero NaN;
            mkControlPoint (ofZ 8) one one] 2).
  - simpl. lia.
  - right. by left.
Defined.

(** X27. [updatePointWeight] at a valid index with a weight that is [NaN]
    or missing stores [NaN], and from then on [deCasteljauBezier] on the
    stored points (two or more) returns [{x: NaN, y: NaN}] at every
    parameter. *)
Theorem updatePointWeight_NaN_reaches_curve {Id : Type} (index : Z)
    (weight : val) (points : list (@Point Id)) (t : val) :
  inRange index points = true -> (2 <= length points)%nat ->
  isNaN weight = true ->
  exists stored,
    updatePointWeight index weight points = (true, stored)
    /\ (cp_weight ∘ point <$> stored !! Z.to_nat index) = Some NaN
    /\ deCasteljauBezier (map point stored) t = Some nanCurvePoint.
Proof.
  intros Hin Hlen Hw. unfold updatePointWeight. rewrite Hin.
  eexists. split; [done|].
  unfold inRange in Hin. apply andb_true_iff in Hin as [H0 H1].
  apply Z.leb_le in H0. apply Z.ltb_lt in H1.
  destruct (lookup_lt_is_Some_2 points (Z.to_nat index)) as [p Hp]; [lia|].
  assert (Hstored :
    alter (setWeight weight) (Z.to_nat index) points !! Z.to_nat index
    = Some (setWeight weight p)).
  { rewrite list_lookup_alter, Hp. by rewrite decide_True. }
  split.
  - rewrite Hstored. cbn. by rewrite (clampWeight_NaN _ Hw).
  - apply deCasteljauBezier_poisoned.
    + by rewrite length_map, length_alter.
    + apply Exists_exists. exists (point (setWeight weight p)). split.
      * apply List.in_map, (proj1 (list_elem_of_In _ _)).
        by eapply list_elem_of_lookup_2.
      * unfold nanWeight. cbn. by rewrite (clampWeight_NaN _ Hw).
Qed.

Lemma updatePointWeight_NaN_reaches_curve_witness :
  let points :=
    [mkPoint {| cp_x := zero; cp_y := zero; cp_weight := one |} 0%nat;
     mkPoint {| cp_x := ofZ 4; cp_y := zero; cp_weight := one |} 1%nat] in
  exists stored,
    updatePointWeight 1 NaN points = (true, stored)
    /\ (cp_weight ∘ point <$> stored !! Z.to_nat 1) = Some NaN
    /\ deCasteljauBezier (map point stored) (Fin (Q2Qc (1 # 2)))
       = Some nanCurvePoint.
Proof.
  intros points.
  apply (updatePointWeight_NaN_reaches_curve 1 NaN points
           (Fin (Q2Qc (1 # 2)))).
  - reflexivity.
  - simpl. lia.
  - reflexivity.
Defined.

(** ** The statistics of a curve *)

Section StatisticsFacts.

Context {Id : Type}.




End StatisticsFacts.


(** ** A B-Spline on [degree + 1] points is the Bezier curve *)

Section BezierAsSpline.

Variable degree : nat.
Variable t : Qc.
Hypothesis t_lo : 0 <= t.
Hypothesis t_hi : t < 1.










End BezierAsSpline.






